(** * top-stories: the filter engine, the consumer store, the query layer
      and the scraper's deduplication, embedded from the Go sources

    - [story-api/main.go]: [Story], [FilterConfig], [StoryFilter],
      [NewStoryFilter], [Matches], [consumeMessages], [AddStory],
      [GetAllStories], [handleGetStories];
    - the scraper ([package main] with [seenStories]):
      [publishStoryToKafka], [addAndPublishStory].

    Go's [int] and [int64] are modelled as [Z]: the embedded code only
    compares and stores them, so no wrap-around can occur.  Go strings are
    byte strings: [string] with one [ascii] per byte. *)

From Stdlib Require Import ZArith Lia Ascii String List Sorted Permutation.
From stdpp Require Import base gmap strings list sorting.

Local Open Scope string_scope.
Local Open Scope list_scope.
Local Open Scope Z_scope.

(* ===================================================================== *)
(** * Part I: definitions                                                 *)
(* ===================================================================== *)

(** ** The [Story] struct (identical in both programs) *)

Record Story := mkStory {
  ID    : Z;
  Title : string;
  URL   : string;
  By    : string;
  Score : Z;
  Time_ : Z;      (* field [Time]; the bare name is reserved in Rocq *)
  Type_ : string  (* field [Type]; likewise *)
}.

#[global] Instance Story_eq_dec : EqDecision Story.
Proof. solve_decision. Defined.

Definition with_Title (t : string) (s : Story) : Story :=
  mkStory (ID s) t (URL s) (By s) (Score s) (Time_ s) (Type_ s).

(** ** The fragments of Go's [strings] package the filter calls *)

Module Strings.

Definition byte (c : ascii) : Z := Z.of_N (N_of_ascii c).

(** [utf8.RuneSelf]: bytes below it are single-byte runes. *)
Definition RuneSelf : Z := 128.

(** ['A' <= c && c <= 'Z'] *)
Definition is_upper (c : ascii) : bool :=
  (byte "A"%char <=? byte c) && (byte c <=? byte "Z"%char).

(** ['a' <= c && c <= 'z'] *)
Definition is_lower (c : ascii) : bool :=
  (byte "a"%char <=? byte c) && (byte c <=? byte "z"%char).

(** [c += 'a' - 'A'] on a byte. *)
Definition lower_byte (c : ascii) : ascii :=
  if is_upper c
  then ascii_of_N (Z.to_N ((byte c + (byte "a"%char - byte "A"%char)) mod 256))
  else c.

(** [c -= 'a' - 'A'] on a byte (the ASCII path of [strings.ToUpper]). *)
Definition upper_byte (c : ascii) : ascii :=
  if is_lower c
  then ascii_of_N (Z.to_N ((byte c - (byte "a"%char - byte "A"%char)) mod 256))
  else c.

Fixpoint isASCII (s : string) : bool :=
  match s with
  | EmptyString => true
  | String c s' => if RuneSelf <=? byte c then false else isASCII s'
  end.

Fixpoint hasUpper (s : string) : bool :=
  match s with
  | EmptyString => false
  | String c s' => is_upper c || hasUpper s'
  end.

Fixpoint lower_bytes (s : string) : string :=
  match s with
  | EmptyString => EmptyString
  | String c s' => String (lower_byte c) (lower_bytes s')
  end.

Section ToLower.
(** [strings.Map(unicode.ToLower, s)], the path [strings.ToLower] takes
    for a string with a byte outside ASCII.  It is library code driven
    by the Unicode case tables, so it is a parameter here; the ASCII
    path is the library's byte loop. *)
Variable unicodeLower : string -> string.

Definition ToLower (s : string) : string :=
  if isASCII s then
    if negb (hasUpper s) then s else lower_bytes s
  else unicodeLower s.
End ToLower.

Fixpoint HasPrefix (s prefix : string) {struct prefix} : bool :=
  match prefix, s with
  | EmptyString, _ => true
  | String _ _, EmptyString => false
  | String p prefix', String c s' =>
      if Ascii.eqb c p then HasPrefix s' prefix' else false
  end.

(** [strings.Contains(s, substr)]: [Index(s, substr) >= 0], a byte-wise
    search for the first position at which [substr] starts. *)
Fixpoint Contains (s substr : string) : bool :=
  if HasPrefix s substr then true
  else match s with
       | EmptyString => false
       | String _ s' => Contains s' substr
       end.

End Strings.

(** ** story-api: the filter engine *)

Record FilterConfig := mkFilterConfig {
  StoryTypes   : list string;
  Keywords     : list string;
  MinimumScore : Z
}.

Record StoryFilter := mkStoryFilter {
  storyTypes   : gmap string bool;
  keywords     : list string;
  minimumScore : Z;
  enabled      : bool
}.

(** [for _, t := range cfg.StoryTypes { filter.storyTypes[t] = true }] *)
Fixpoint populate (types : list string) (m : gmap string bool) : gmap string bool :=
  match types with
  | [] => m
  | t :: rest => populate rest (<[t := true]> m)
  end.

Definition NewStoryFilter (cfg : FilterConfig) : StoryFilter :=
  {| storyTypes   := populate (StoryTypes cfg) ∅;
     keywords     := Keywords cfg;
     minimumScore := MinimumScore cfg;
     enabled      := (0 <? Z.of_nat (length (StoryTypes cfg)))
                     || (0 <? Z.of_nat (length (Keywords cfg)))
                     || (0 <? MinimumScore cfg) |}.

(** Indexing a Go [map[string]bool]: the zero value [false] for an absent key. *)
Definition index_bool (m : gmap string bool) (k : string) : bool :=
  default false (m !! k).

Section Matches.
Variable unicodeLower : string -> string.
Local Abbreviation ToLower := (Strings.ToLower unicodeLower).

(** The keyword loop: [matched] becomes true at the first keyword found
    in the lower-cased title, and the loop breaks there. *)
Fixpoint keyword_loop (titleLower : string) (kws : list string) : bool :=
  match kws with
  | [] => false
  | keyword :: rest =>
      if Strings.Contains titleLower (ToLower keyword) then true
      else keyword_loop titleLower rest
  end.

Definition Matches (f : StoryFilter) (story : Story) : bool :=
  if negb (enabled f) then true
  else if (0 <? Z.of_nat (size (storyTypes f)))
          && negb (index_bool (storyTypes f) (Type_ story)) then false
  else if Score story <? minimumScore f then false
  else if 0 <? Z.of_nat (length (keywords f)) then
    let titleLower := ToLower (Title story) in
    let matched := keyword_loop titleLower (keywords f) in
    if negb matched then false else true
  else true.
End Matches.

(** *** The filter contract in the specification's words

    The three constraints of the filter engine, stated independently of
    the control flow of [Matches]. *)

(** The allowed-type set: the keys of the [storyTypes] map. *)
Definition allowed_types (f : StoryFilter) : gset string := dom (storyTypes f).

(** Every entry of the map is [true], as [NewStoryFilter] builds it. *)
Definition types_wf (f : StoryFilter) : Prop :=
  ∀ t b, storyTypes f !! t = Some b → b = true.

(** [sub] occurs in [s] as a contiguous run of bytes. *)
Definition is_substring (sub s : string) : Prop :=
  ∃ before after, s = before +:+ sub +:+ after.

Section Constraints.
Variable unicodeLower : string -> string.
Local Abbreviation ToLower := (Strings.ToLower unicodeLower).

Definition type_constraint (f : StoryFilter) (story : Story) : Prop :=
  allowed_types f = ∅ ∨ Type_ story ∈ allowed_types f.

Definition score_constraint (f : StoryFilter) (story : Story) : Prop :=
  minimumScore f <= Score story.

Definition title_has_keyword (kws : list string) (title : string) : Prop :=
  ∃ k, k ∈ kws ∧ is_substring (ToLower k) (ToLower title).

Definition keyword_constraint (f : StoryFilter) (story : Story) : Prop :=
  keywords f = [] ∨ title_has_keyword (keywords f) (Title story).

(** Two strings that differ at most in letter case as [strings.ToLower]
    sees it: they have the same lower-cased form. *)
Definition same_fold (s t : string) : Prop := ToLower s = ToLower t.
End Constraints.

(** Letter case, byte by byte and independently of [ToLower]: [t] is a
    case variant of [s] when each byte of [t] is the byte of [s] at the same
    position, or its ASCII upper-case or lower-case counterpart. *)
Inductive case_variant : string -> string -> Prop :=
  | cv_empty : case_variant EmptyString EmptyString
  | cv_byte (a b : ascii) (s t : string) :
      b = a ∨ b = Strings.upper_byte a ∨ b = Strings.lower_byte a ->
      case_variant s t ->
      case_variant (String a s) (String b t).

Definition with_keywords (kws : list string) (f : StoryFilter) : StoryFilter :=
  mkStoryFilter (storyTypes f) kws (minimumScore f) (enabled f).

(** A lower-casing of non-ASCII strings that does not tell the case of
    ASCII letters apart, as [strings.Map(unicode.ToLower, s)] does not:
    it maps every rune below [utf8.RuneSelf] as the byte loop does. *)
Definition folds_ascii_case (unicodeLower : string -> string) : Prop :=
  ∀ s t, case_variant s t → unicodeLower t = unicodeLower s.

(** *** Letter case outside ASCII: the Greek sigma

    The capital sigma (U+03A3) has two lower-case forms, the small sigma
    (U+03C3) and the final sigma (U+03C2).  In the case tables of Go's
    [unicode] package [ToLower] maps the capital to the small sigma and
    leaves both lower-case forms as they are, while [ToUpper] maps both to
    the capital.  The strings are the UTF-8 encodings. *)
Definition capital_sigma : string :=
  String (ascii_of_N 206) (String (ascii_of_N 163) EmptyString).
Definition small_sigma : string :=
  String (ascii_of_N 207) (String (ascii_of_N 131) EmptyString).
Definition final_sigma : string :=
  String (ascii_of_N 207) (String (ascii_of_N 130) EmptyString).

Definition is_bytes (a b : ascii) (x y : N) : bool :=
  (N_of_ascii a =? x)%N && (N_of_ascii b =? y)%N.

(** [strings.Map(unicode.ToLower, s)] on strings made of ASCII
    characters and sigmas: the capital sigma becomes the small one, ASCII
    letters are lower-cased, everything else is kept. *)
Fixpoint sigma_lower (s : string) : string :=
  match s with
  | EmptyString => EmptyString
  | String a s' =>
      match s' with
      | String b rest =>
          if is_bytes a b 206 163
          then String (ascii_of_N 207) (String (ascii_of_N 131) (sigma_lower rest))
          else String (Strings.lower_byte a) (sigma_lower s')
      | EmptyString => String (Strings.lower_byte a) EmptyString
      end
  end.

(** [strings.ToUpper] on the same strings: both lower-case sigmas become
    the capital one, ASCII letters are upper-cased. *)
Fixpoint sigma_upper (s : string) : string :=
  match s with
  | EmptyString => EmptyString
  | String a s' =>
      match s' with
      | String b rest =>
          if is_bytes a b 207 131 || is_bytes a b 207 130
          then String (ascii_of_N 206) (String (ascii_of_N 163) (sigma_upper rest))
          else String (Strings.upper_byte a) (sigma_upper s')
      | EmptyString => String (Strings.upper_byte a) EmptyString
      end
  end.

(** ** story-api: the item index *)

Definition AddStory (story : Story) (stories : gmap Z Story) : gmap Z Story :=
  <[ID story := story]> stories.

(** [GetAllStories] ranges over a Go map, whose iteration order is not
    specified: this is one enumeration, and [enumerates] holds of every
    list the method can return. *)
Definition GetAllStories (stories : gmap Z Story) : list Story :=
  (map_to_list stories).*2.

Definition enumerates (l : list Story) (stories : gmap Z Story) : Prop :=
  l ≡ₚ GetAllStories stories.

(** ** story-api: the query layer *)

(** The values [r.URL.Query().Get(key)] returns for the five keys the
    handler reads; [Get] yields the empty string for an absent key. *)
Record Query := mkQuery {
  q_minScore : string;
  q_maxScore : string;
  q_since    : string;
  q_until    : string;
  q_sort     : string
}.

Record Bounds := mkBounds {
  minScore  : Z;
  maxScore  : Z;
  sinceTime : Z;
  untilTime : Z
}.

(** [int(^uint32(0) >> 1)] *)
Definition default_maxScore : Z := Z.shiftr (Z.lnot 0 mod 2 ^ 32) 1.

Record Response := mkResponse {
  status      : Z;          (* never set by the handler: 200 *)
  contentType : string;
  body        : list Story  (* the slice handed to the JSON encoder *)
}.

(** [sort.Slice]: the insertion pass of the library, which moves each
    element towards the front while it is [less] than its left neighbour.
    The library runs exactly this on slices of up to twelve elements and
    may order ties differently on longer ones; what is proved below about
    the result is that it is a permutation ordered by [less]. *)
Section SortSlice.
Context {A : Type} (less : A -> A -> bool).

(** [rprefix] is the ordered prefix, last element first. *)
Fixpoint sift (x : A) (rprefix : list A) : list A :=
  match rprefix with
  | [] => [x]
  | p :: rest => if less x p then p :: sift x rest else x :: rprefix
  end.

Definition sort_Slice (data : list A) : list A :=
  rev (fold_left (fun rprefix x => sift x rprefix) data []).
End SortSlice.

Section HandleGetStories.
(** [strconv.Atoi], with [None] for [err != nil]. *)
Variable Atoi : string -> option Z.
(** [time.Parse(time.RFC3339, s)] followed by [t.Unix()], with [None]
    for [err != nil]. *)
Variable ParseRFC3339 : string -> option Z.

Definition parseQuery (r : Query) : Bounds :=
  {| minScore :=
       if String.eqb (q_minScore r) "" then 0
       else match Atoi (q_minScore r) with Some v => v | None => 0 end;
     maxScore :=
       if String.eqb (q_maxScore r) "" then default_maxScore
       else match Atoi (q_maxScore r) with
            | Some v => v
            | None => default_maxScore
            end;
     sinceTime :=
       if String.eqb (q_since r) "" then 0
       else match ParseRFC3339 (q_since r) with Some t => t | None => 0 end;
     untilTime :=
       if String.eqb (q_until r) "" then 0
       else match ParseRFC3339 (q_until r) with Some t => t | None => 0 end
  |}.

(** The three [continue] tests of the filter loop. *)
Definition score_out (b : Bounds) (story : Story) : bool :=
  (Score story <? minScore b) || (maxScore b <? Score story).

Definition before_since (b : Bounds) (story : Story) : bool :=
  (0 <? sinceTime b) && (Time_ story <? sinceTime b).

Definition after_until (b : Bounds) (story : Story) : bool :=
  (0 <? untilTime b) && (untilTime b <? Time_ story).

Definition kept (b : Bounds) (story : Story) : bool :=
  if score_out b story then false
  else if before_since b story then false
  else if after_until b story then false
  else true.

Definition sortStories (sortBy : string) (filtered : list Story) : list Story :=
  if String.eqb sortBy "oldest" then
    sort_Slice (fun a b => Time_ a <? Time_ b) filtered
  else if String.eqb sortBy "popularity" then
    sort_Slice (fun a b => Score b <? Score a) filtered
  else (* case "latest": fallthrough; default: *)
    sort_Slice (fun a b => Time_ b <? Time_ a) filtered.

(** The handler from the line after [stories := s.store.GetAllStories()]. *)
Definition respond (stories : list Story) (r : Query) : Response :=
  let b := parseQuery r in
  let filtered := List.filter (kept b) stories in
  {| status := 200;
     contentType := "application/json";
     body := sortStories (q_sort r) filtered |}.

Definition handleGetStories (store : gmap Z Story) (r : Query) : Response :=
  respond (GetAllStories store) r.
End HandleGetStories.

Definition with_minScore (v : string) (r : Query) : Query :=
  mkQuery v (q_maxScore r) (q_since r) (q_until r) (q_sort r).
Definition with_maxScore (v : string) (r : Query) : Query :=
  mkQuery (q_minScore r) v (q_since r) (q_until r) (q_sort r).
Definition with_since (v : string) (r : Query) : Query :=
  mkQuery (q_minScore r) (q_maxScore r) v (q_until r) (q_sort r).
Definition with_until (v : string) (r : Query) : Query :=
  mkQuery (q_minScore r) (q_maxScore r) (q_since r) v (q_sort r).
Definition with_sort (v : string) (r : Query) : Query :=
  mkQuery (q_minScore r) (q_maxScore r) (q_since r) (q_until r) v.

(** A request with no query parameters at all. *)
Definition no_params : Query := mkQuery "" "" "" "" "".

(** The three orders of the query layer, on adjacent and on distant
    items of a response alike. *)
Definition time_ascending : relation Story := fun a b => Time_ a <= Time_ b.
Definition time_descending : relation Story := fun a b => Time_ b <= Time_ a.
Definition score_descending : relation Story := fun a b => Score b <= Score a.

(** ** story-api: the consumer loop *)

(** What one turn of the loop in [consumeMessages] observes. *)
Inductive Fetch :=
  | CtxDone                         (* [<-s.ctx.Done()] is ready *)
  | FetchCanceled                   (* [err == context.Canceled] *)
  | FetchFailed                     (* any other fetch error *)
  | FetchMessage (value : string).  (* [msg.Value] *)

Inductive ServerLog :=
  | LogShutdown
  | LogFetchError
  | LogUnmarshalError
  | LogFiltered (story : Story)
  | LogStored (story : Story).

Record Server := mkServer {
  store  : gmap Z Story;
  filter : StoryFilter;
  output : list ServerLog    (* lines printed so far, oldest first *)
}.

Definition printf (line : ServerLog) (s : Server) : Server :=
  mkServer (store s) (filter s) (output s ++ [line]).

Definition store_AddStory (story : Story) (s : Server) : Server :=
  mkServer (AddStory story (store s)) (filter s) (output s).

Section ConsumeMessages.
Variable unicodeLower : string -> string.
(** [json.Unmarshal(msg.Value, &story)] into a fresh [Story], with [None]
    for [err != nil]. *)
Variable Unmarshal : string -> option Story.

(** The loop body run over the successive fetches of a finite prefix of
    the stream; the loop itself ends only on shutdown. *)
Fixpoint consumeMessages (fetches : list Fetch) (s : Server) : Server :=
  match fetches with
  | [] => s
  | CtxDone :: _ => printf LogShutdown s
  | FetchCanceled :: _ => s
  | FetchFailed :: rest => consumeMessages rest (printf LogFetchError s)
  | FetchMessage value :: rest =>
      match Unmarshal value with
      | None => consumeMessages rest (printf LogUnmarshalError s)
      | Some story =>
          if negb (Matches unicodeLower (filter s) story) then
            consumeMessages rest (printf (LogFiltered story) s)
          else
            consumeMessages rest
              (printf (LogStored story) (store_AddStory story s))
      end
  end.

(** A fetch the loop gets past without touching the index: a fetch
    error, a payload that does not decode, a story the filter rejects. *)
Definition discarded (f : StoryFilter) (x : Fetch) : bool :=
  match x with
  | CtxDone | FetchCanceled => false
  | FetchFailed => true
  | FetchMessage value =>
      match Unmarshal value with
      | None => true
      | Some story => negb (Matches unicodeLower f story)
      end
  end.
End ConsumeMessages.

(** A fetch that does not end the loop. *)
Definition continues (f : Fetch) : bool :=
  match f with
  | CtxDone | FetchCanceled => false
  | FetchFailed | FetchMessage _ => true
  end.

(** ** The scraper: deduplication and publishing *)

Module Scraper.

(** A [kafka.Message]: the key is the source label; the value is the
    JSON encoding of the story, kept here as the story it encodes. *)
Record Message := mkMessage {
  Key   : string;
  Value : Story
}.

(** How one [WriteMessages] attempt ends, as the [select] sees it. *)
Inductive WriteResult :=
  | WriteOk         (* [err == nil]: the broker took the message *)
  | WriteErr        (* [err != nil] *)
  | WriteTimeout    (* [time.After(6 * time.Second)] fired first *)
  | WriteShutdown.  (* [s.ctx.Done()] fired first *)

(** Each write runs in a goroutine of its own, on a context derived from
    [context.Background()]: the loop neither cancels it nor waits for it
    once the [select] has moved on.  A write that the loop takes for
    failed (an error, the time-out, the shutdown) may therefore still
    reach the broker; [landed] says whether this one did. *)
Record Attempt := mkAttempt {
  result : WriteResult;
  (** for a result other than [WriteOk]: the message reached the broker
      all the same *)
  landed : bool;
  (** after a failed attempt: [s.ctx.Err() != nil] at the check that
      follows the [select] *)
  shutdownBeforeRetry : bool;
  (** [s.ctx.Done()] fires before the back-off wait is over *)
  shutdownWhileWaiting : bool
}.

Inductive PublishError :=
  | ErrShutdown
  | ErrRetriesExhausted (id : Z) (retries : Z).

Inductive Line :=
  | LineNew (title : string)
  | LineURL (url : string)
  | LinePublished (source title : string) (id : Z)
  | LineRetry (id attempt maxRetries backoffSeconds : Z)
  | LineError (e : PublishError).

Record Scraper := mkScraper {
  seenStories : gmap Z bool;
  topic       : list Message;  (* what the broker has taken, in order *)
  cancelled   : bool;          (* [s.ctx.Err() != nil] *)
  attempts    : nat;           (* write attempts made so far *)
  printed     : list Line
}.

(** [NewScraper]: nothing seen, nothing published. *)
Definition NewScraper : Scraper := mkScraper ∅ [] false 0%nat [].

Definition mark_seen (id : Z) (s : Scraper) : Scraper :=
  mkScraper (<[id := true]> (seenStories s)) (topic s) (cancelled s)
            (attempts s) (printed s).

Definition deliver (m : Message) (s : Scraper) : Scraper :=
  mkScraper (seenStories s) (topic s ++ [m]) (cancelled s)
            (attempts s) (printed s).

Definition cancel (s : Scraper) : Scraper :=
  mkScraper (seenStories s) (topic s) true (attempts s) (printed s).

Definition next_attempt (s : Scraper) : Scraper :=
  mkScraper (seenStories s) (topic s) (cancelled s)
            (S (attempts s)) (printed s).

Definition print (l : Line) (s : Scraper) : Scraper :=
  mkScraper (seenStories s) (topic s) (cancelled s)
            (attempts s) (printed s ++ [l]).

Definition maxRetries : Z := 5.

(** What a write that was not acknowledged leaves on the topic. *)
Definition unacknowledged (a : Attempt) (m : Message) (s : Scraper) : Scraper :=
  if landed a then deliver m s else s.

Section Publish.
(** The behaviour of the broker connection and of the shutdown signal:
    what the n-th write attempt of the process runs into. *)
Variable kafka : nat -> Attempt.

(** The retry loop of [publishStoryToKafka]; [remaining] counts the
    turns left, [attempt] is the loop counter and [backoff] the wait
    in seconds.  [json.Marshal] cannot fail on a [Story], so the loop
    is always entered. *)
Fixpoint retry_loop (remaining : nat) (attempt backoff : Z)
         (story : Story) (source : string) (s : Scraper)
  : option PublishError * Scraper :=
  match remaining with
  | O => (Some (ErrRetriesExhausted (ID story) maxRetries), s)
  | S remaining' =>
      if cancelled s then (Some ErrShutdown, s)
      else
        let a := kafka (attempts s) in
        let s := next_attempt s in
        match result a with
        | WriteOk =>
            (None,
             print (LinePublished source (Title story) (ID story))
                   (deliver (mkMessage source story) s))
        | WriteShutdown =>
            (Some ErrShutdown,
             cancel (unacknowledged a (mkMessage source story) s))
        | WriteErr | WriteTimeout =>
            let s := unacknowledged a (mkMessage source story) s in
            if shutdownBeforeRetry a then (Some ErrShutdown, cancel s)
            else if attempt <? maxRetries then
              let s :=
                print (LineRetry (ID story) (attempt + 1) maxRetries backoff) s in
              if shutdownWhileWaiting a then (Some ErrShutdown, cancel s)
              else retry_loop remaining' (attempt + 1) (backoff * 2)
                              story source s
            else
              retry_loop remaining' (attempt + 1) backoff story source s
        end
  end.

Definition publishStoryToKafka (story : Story) (source : string) (s : Scraper)
  : option PublishError * Scraper :=
  retry_loop (Z.to_nat (maxRetries + 1)) 0 1 story source s.

(** [!s.seenStories[story.ID]] *)
Definition unseen (id : Z) (s : Scraper) : bool :=
  negb (default false (seenStories s !! id)).

Definition addAndPublishStory (story : Story) (source : string) (s : Scraper)
  : Scraper :=
  if unseen (ID story) s then
    let s := mark_seen (ID story) s in
    let s := print (LineNew (Title story)) s in
    let s := if negb (String.eqb (URL story) "")
             then print (LineURL (URL story)) s else s in
    match publishStoryToKafka story source s with
    | (Some e, s') => print (LineError e) s'
    | (None, s') => s'
    end
  else s.

(** The inner loop of [pollStories] over the items fetched for one
    source; [None] stands for a failed [fetchStory]. *)
Fixpoint poll_items (source : string) (items : list (option Story))
         (s : Scraper) : Scraper :=
  match items with
  | [] => s
  | item :: rest =>
      if cancelled s then s
      else match item with
           | None => poll_items source rest s
           | Some story =>
               if negb (String.eqb (Title story) "")
               then poll_items source rest (addAndPublishStory story source s)
               else poll_items source rest s
           end
  end.

(** [pollStories] over what the two sources return on this tick, in
    the order the map of sources is ranged over; [None] stands for a
    failed [fetchStoryIDs], and the items are those of the ids that
    remain after [ids[:s.storiesToFetch]]. *)
Fixpoint pollStories (sources : list (string * option (list (option Story))))
         (s : Scraper) : Scraper :=
  match sources with
  | [] => s
  | (source, fetched) :: rest =>
      if cancelled s then s
      else match fetched with
           | None => pollStories rest s
           | Some items => pollStories rest (poll_items source items s)
           end
  end.

(** The polls of one process lifetime: the one at start-up, then one
    per tick. *)
Definition run (ticks : list (list (string * option (list (option Story)))))
           (s : Scraper) : Scraper :=
  fold_left (fun s tick => pollStories tick s) ticks s.

(** Any sequence of calls of [addAndPublishStory]. *)
Definition calls (cs : list (Story * string)) (s : Scraper) : Scraper :=
  fold_left (fun s c => addAndPublishStory c.1 c.2 s) cs s.
End Publish.

(** The ids of the messages the broker has taken. *)
Definition published_ids (s : Scraper) : list Z :=
  map (fun m => ID (Value m)) (topic s).

(** The invariant of the scraper's state: every message the broker has
    taken carries an id of its own, and that id is marked seen. *)
Definition published_once (s : Scraper) : Prop :=
  NoDup (published_ids s)
  ∧ ∀ m, m ∈ topic s → seenStories s !! ID (Value m) = Some true.

(** How many broker messages carry the id. *)
Definition messages_for (id : Z) (s : Scraper) : nat :=
  length (List.filter (fun m => ID (Value m) =? id) (topic s)).

(** A broker connection on which a write that is not acknowledged has
    not reached the broker. *)
Definition failures_are_losses (kafka : nat -> Attempt) : Prop :=
  ∀ n, result (kafka n) ≠ WriteOk → landed (kafka n) = false.

(** Every message on the topic carries an id that is marked seen. *)
Definition topic_seen (s : Scraper) : Prop :=
  ∀ m, m ∈ topic s → seenStories s !! ID (Value m) = Some true.

(** The messages of one id are the copies sent by one publish call: they
    are the same message, at most one per write attempt of the call. *)
Definition copies_of_one_call (s : Scraper) : Prop :=
  topic_seen s
  ∧ (∀ id, (messages_for id s ≤ Z.to_nat (maxRetries + 1))%nat)
  ∧ (∀ m m', m ∈ topic s → m' ∈ topic s →
             ID (Value m) = ID (Value m') → m = m').

End Scraper.

(** ** Concrete data for the closed instances of Part II *)

(** A filter in the style of the README's examples (type, keyword and
    minimum score together) and a story it accepts. *)
Definition rust_cfg : FilterConfig := mkFilterConfig ["story"] ["rust"] 10.
Definition rust_story : Story :=
  mkStory 1 "Learning Rust" "https://example.org" "alice" 42 100 "story".

(** The same story and keyword in other letter case. *)
Definition rust_title_upper : string := "LEARNING RUST".
Definition rust_keywords_mixed : list string := ["RuSt"].

(** A filter whose only keyword is the final sigma, and a story whose
    title is that letter. *)
Definition sigma_cfg : FilterConfig := mkFilterConfig [] [final_sigma] 0.
Definition sigma_story : Story := mkStory 8 final_sigma "" "dora" 1 60 "story".

(** A configuration whose only constraint is a negative minimum score. *)
Definition negative_score_cfg : FilterConfig := mkFilterConfig [] [] (-5).

(** A configuration whose only keyword is the empty string, and a story
    with an empty title. *)
Definition empty_keyword_cfg : FilterConfig := mkFilterConfig [] [""] 0.
Definition untitled_story : Story := mkStory 7 "" "" "bob" 3 50 "story".

(** Instances of the two parsers for the closed instances: decimal
    integers in the range of a 64-bit [int], as [strconv.Atoi] accepts
    them, and a small table of RFC 3339 instants. *)
Definition digit (c : ascii) : option Z :=
  let d := Strings.byte c - Strings.byte "0"%char in
  if (0 <=? d) && (d <=? 9) then Some d else None.

Fixpoint digits (s : string) (acc : Z) : option Z :=
  match s with
  | EmptyString => Some acc
  | String c s' =>
      match digit c with
      | Some d => digits s' (acc * 10 + d)
      | None => None
      end
  end.

Definition in_int64 (v : Z) : option Z :=
  if (- 2 ^ 63 <=? v) && (v <? 2 ^ 63) then Some v else None.

Definition Atoi_decimal (s : string) : option Z :=
  match s with
  | EmptyString => None
  | String c s' =>
      if Ascii.eqb c "-" then
        if String.eqb s' "" then None
        else v ← digits s' 0; in_int64 (- v)
      else if Ascii.eqb c "+" then
        if String.eqb s' "" then None
        else v ← digits s' 0; in_int64 v
      else v ← digits s 0; in_int64 v
  end.

Definition rfc3339_table (s : string) : option Z :=
  if String.eqb s "1970-01-01T00:00:00Z" then Some 0
  else if String.eqb s "1969-12-31T23:59:00Z" then Some (-60)
  else if String.eqb s "1970-01-01T00:03:20Z" then Some 200
  else None.

(** A request with both score bounds, and items on and next to them. *)
Definition score_10_to_20 : Query := mkQuery "10" "20" "" "" "".
Definition scored (id score : Z) : Story := mkStory id "item" "" "e" score 500 "story".
Definition scored_items : list Story :=
  [scored 1 9; scored 2 10; scored 3 20; scored 4 21].

(** Requests with malformed parameters, and with instants at or before
    the epoch. *)
Definition malformed_params : Query := mkQuery "ten" "1e3" "yesterday" "2024-13-01" "".
Definition since_epoch : Query := mkQuery "" "" "1970-01-01T00:00:00Z" "" "".
Definition until_before_epoch : Query := mkQuery "" "" "" "1969-12-31T23:59:00Z" "".

(** The three items of the sort example: timestamps 100, 300, 200 with
    scores 5, 50, 20. *)
Definition item_100 : Story := mkStory 1 "first" "" "a" 5 100 "story".
Definition item_300 : Story := mkStory 2 "second" "" "b" 50 300 "story".
Definition item_200 : Story := mkStory 3 "third" "" "c" 20 200 "story".
Definition three_items : gmap Z Story :=
  AddStory item_200 (AddStory item_300 (AddStory item_100 ∅)).

(** A stored item with a negative score. *)
Definition downvoted : Story := mkStory 9 "flagged" "" "d" (-1) 400 "story".
Definition downvoted_index : gmap Z Story := AddStory downvoted ∅.

(** A decoder instance for the closed instances: two payloads that
    decode, everything else malformed. *)
Definition low_score_story : Story :=
  mkStory 2 "Rust in production" "" "carol" 3 120 "story".

Definition decode_table (value : string) : option Story :=
  if String.eqb value "rust-story" then Some rust_story
  else if String.eqb value "low-score" then Some low_score_story
  else None.

Definition rust_server : Server := mkServer ∅ (NewStoryFilter rust_cfg) [].

(** A malformed payload, a fetch error and a filtered-out story, then a
    story the filter accepts. *)
Definition bad_then_good : list Fetch :=
  [FetchMessage "{not json"; FetchFailed; FetchMessage "low-score"].

(** Broker behaviours for the closed instances: every write fails; the
    first eight attempts fail and the later ones succeed. *)
Definition broker_down : nat -> Scraper.Attempt :=
  fun _ => Scraper.mkAttempt Scraper.WriteErr false false false.

Definition broker_recovers : nat -> Scraper.Attempt :=
  fun n => if (n <? 8)%nat
           then Scraper.mkAttempt Scraper.WriteTimeout false false false
           else Scraper.mkAttempt Scraper.WriteOk false false false.

(** A broker whose first write times out on the scraper's side and
    reaches the topic all the same; the later writes are acknowledged. *)
Definition broker_slow_ack : nat -> Scraper.Attempt :=
  fun n => if (n <? 1)%nat
           then Scraper.mkAttempt Scraper.WriteTimeout true false false
           else Scraper.mkAttempt Scraper.WriteOk false false false.

(** Two ticks that list the same two stories under both sources. *)
Definition same_tick : list (string * option (list (option Story))) :=
  [("top", Some [Some rust_story; None; Some low_score_story]);
   ("new", Some [Some low_score_story; Some rust_story])].
Definition two_ticks : list (list (string * option (list (option Story)))) :=
  [same_tick; same_tick].

(** ** story-api: server construction and the accepted stream *)

(** [NewServer] once [createKafkaReader] has succeeded: an empty index
    and the filter built from the configuration. *)
Definition NewServer (cfg : FilterConfig) : Server :=
  mkServer ∅ (NewStoryFilter cfg) [].

(** The index is keyed by the id of the story it holds. *)
Definition keyed (stories : gmap Z Story) : Prop :=
  ∀ k story, stories !! k = Some story → ID story = k.

Section Accepted.
Variable unicodeLower : string -> string.
Variable Unmarshal : string -> option Story.

(** The stories of the stream that decode and pass the filter, in order
    of arrival, up to the fetch that shuts the loop down. *)
Fixpoint accepted (f : StoryFilter) (fetches : list Fetch) : list Story :=
  match fetches with
  | [] => []
  | CtxDone :: _ => []
  | FetchCanceled :: _ => []
  | FetchFailed :: rest => accepted f rest
  | FetchMessage value :: rest =>
      match Unmarshal value with
      | None => accepted f rest
      | Some story =>
          if Matches unicodeLower f story then story :: accepted f rest
          else accepted f rest
      end
  end.
End Accepted.

(** The last story of a list that carries the id. *)
Definition last_with_id (id : Z) (l : list Story) : option Story :=
  last (List.filter (fun story => ID story =? id) l).

(** ** Loading the configuration (the same function in both programs) *)

Module Loader.

Record KafkaConfig := mkKafkaConfig {
  Broker         : string;
  Topic          : string;
  ConsumerGroup  : string;
  CACertPath     : string;
  ClientCertPath : string;
  ClientKeyPath  : string
}.

Record APIConfig := mkAPIConfig { Port : Z }.

Record Config := mkConfig {
  Kafka  : KafkaConfig;
  API    : APIConfig;
  Filter : FilterConfig
}.

Inductive LoadError :=
  | ErrReadFile   (* "failed to read config file" *)
  | ErrParse.     (* "failed to parse config file" *)

(** [p != "" && p[0] != '/'] *)
Definition is_relative (p : string) : bool :=
  match p with
  | EmptyString => false
  | String c _ => negb (Ascii.eqb c "/")
  end.

Definition resolve (configDir p : string) : string :=
  if is_relative p then configDir +:+ p else p.

Section LoadConfig.
(** [os.ReadFile] and [yaml.Unmarshal], with [None] for [err != nil];
    [filepath.Dir] and [filepath.Separator]. *)
Variable ReadFile : string -> option string.
Variable yaml_Unmarshal : string -> option Config.
Variable Dir : string -> string.
Variable Separator : ascii.

Definition configDir (path : string) : string :=
  let d := Dir path in
  if String.eqb d "." then ""
  else if negb (String.eqb d "") then d +:+ String Separator ""
  else d.

Definition resolve_paths (dir : string) (cfg : Config) : Config :=
  mkConfig
    (mkKafkaConfig (Broker (Kafka cfg)) (Topic (Kafka cfg))
       (ConsumerGroup (Kafka cfg))
       (resolve dir (CACertPath (Kafka cfg)))
       (resolve dir (ClientCertPath (Kafka cfg)))
       (resolve dir (ClientKeyPath (Kafka cfg))))
    (API cfg) (Filter cfg).

Definition loadConfig (path : string) : LoadError + Config :=
  match ReadFile path with
  | None => inl ErrReadFile
  | Some data =>
      match yaml_Unmarshal data with
      | None => inl ErrParse
      | Some cfg => inr (resolve_paths (configDir path) cfg)
      end
  end.
End LoadConfig.

(** The three certificate paths of a configuration. *)
Definition cert_paths (cfg : Config) : list string :=
  [CACertPath (Kafka cfg); ClientCertPath (Kafka cfg); ClientKeyPath (Kafka cfg)].

Definition is_absolute (p : string) : bool :=
  match p with
  | String c _ => Ascii.eqb c "/"
  | EmptyString => false
  end.

End Loader.

(** ** The scraper: what a tick fetches *)

(** [if len(ids) > s.storiesToFetch { ids = ids[:s.storiesToFetch] }];
    [None] is the run-time panic of a slice expression with a negative
    bound. *)
Definition limit_ids (storiesToFetch : Z) (ids : list Z) : option (list Z) :=
  if storiesToFetch <? Z.of_nat (length ids) then
    if storiesToFetch <? 0 then None
    else Some (take (Z.to_nat storiesToFetch) ids)
  else Some ids.

(** The fetched stories that reach [addAndPublishStory]: those with a
    title. *)
Fixpoint titled (items : list (option Story)) : list Story :=
  match items with
  | [] => []
  | Some story :: rest =>
      if negb (String.eqb (Title story) "") then story :: titled rest
      else titled rest
  | None :: rest => titled rest
  end.

Fixpoint tick_stories (sources : list (string * option (list (option Story))))
  : list Story :=
  match sources with
  | [] => []
  | (_, Some items) :: rest => titled items ++ tick_stories rest
  | (_, None) :: rest => tick_stories rest
  end.

Definition run_stories (ticks : list (list (string * option (list (option Story)))))
  : list Story :=
  concat (map tick_stories ticks).

(** A broker connection on which every write is acknowledged and no
    shutdown is signalled. *)
Definition healthy (kafka : nat -> Scraper.Attempt) : Prop :=
  ∀ n, Scraper.result (kafka n) = Scraper.WriteOk.

(** The retry lines among the printed lines, as (attempt, wait). *)
Fixpoint retries (lines : list Scraper.Line) : list (Z * Z) :=
  match lines with
  | [] => []
  | Scraper.LineRetry _ attempt _ backoff :: rest => (attempt, backoff) :: retries rest
  | _ :: rest => retries rest
  end.

(** ** More concrete data *)

Definition always_ok : nat -> Scraper.Attempt :=
  fun _ => Scraper.mkAttempt Scraper.WriteOk false false false.

Definition cancelled_scraper : Scraper.Scraper :=
  Scraper.mkScraper ∅ [] true 0%nat [].

Definition deleted_story : Story := mkStory 5 "" "" "" 0 90 "story".

Definition sample_kafka : Loader.KafkaConfig :=
  Loader.mkKafkaConfig "broker:9093" "stories" "api" "certs/ca.pem"
    "/etc/ssl/client.pem" "".
Definition sample_config : Loader.Config :=
  Loader.mkConfig sample_kafka (Loader.mkAPIConfig 8080) rust_cfg.

Definition one_file (path : string) : option string :=
  if String.eqb path "/srv/api/config.yaml" then Some "kafka: ..." else None.
Definition one_yaml (data : string) : option Loader.Config :=
  if String.eqb data "kafka: ..." then Some sample_config else None.
Definition dir_table (path : string) : string :=
  if String.eqb path "/srv/api/config.yaml" then "/srv/api" else ".".

Definition rust_story_rescored : Story :=
  mkStory 1 "Learning Rust" "https://example.org" "alice" 99 100 "story".
Definition rescored_table (value : string) : option Story :=
  if String.eqb value "rust-story" then Some rust_story
  else if String.eqb value "rust-story-2" then Some rust_story_rescored
  else if String.eqb value "low-score" then Some low_score_story
  else None.

Definition empty_keyword_filter : StoryFilter :=
  NewStoryFilter (mkFilterConfig ["story"] ["rust"; ""] 10).

Definition window_query : Query :=
  mkQuery "" "" "1970-01-01T00:03:20Z" "1970-01-01T00:03:20Z" "".
Definition inverted_query : Query := mkQuery "20" "10" "" "" "".

(** A server with nothing configured in its filter. *)
Definition passthrough_server : Server := NewServer (mkFilterConfig [] [] 0).

(** The same story delivered twice, rescored, around a rejected one; and
    a stream that goes on after the shutdown. *)
Definition rescored_stream : list Fetch :=
  [FetchMessage "rust-story"; FetchMessage "low-score";
   FetchMessage "rust-story-2"].
Definition stream_past_shutdown : list Fetch :=
  [FetchMessage "rust-story"; CtxDone; FetchMessage "rust-story-2"].

(** The retry lines a publish call prints if every attempt fails and no
    shutdown comes: the attempt number and the wait, in seconds, that
    follows it. *)
Definition backoff_schedule : list (Z * Z) :=
  [(1, 1); (2, 2); (3, 4); (4, 8); (5, 16)].

(** The same, from a given turn of the loop on. *)
Fixpoint schedule_from (remaining : nat) (attempt backoff : Z) : list (Z * Z) :=
  match remaining with
  | O => []
  | S remaining' =>
      if attempt <? Scraper.maxRetries
      then (attempt + 1, backoff) :: schedule_from remaining' (attempt + 1) (backoff * 2)
      else schedule_from remaining' (attempt + 1) backoff
  end.

Definition fresh_scraper_with (lines : list Scraper.Line) : Scraper.Scraper :=
  Scraper.mkScraper ∅ [] false 0%nat lines.

(** What the retry loop, entered in state [s] with [budget] turns left
    and [sched] the retry lines still ahead, guarantees of its result [r]:
    at most [budget] write attempts, the retry lines printed are a prefix
    of [sched], and retries are reported exhausted only after all the
    turns and all of [sched]. *)
Definition retry_ok (story : Story) (s : Scraper.Scraper)
           (sched : list (Z * Z)) (budget : nat)
           (r : option Scraper.PublishError * Scraper.Scraper) : Prop :=
  (Scraper.attempts s ≤ Scraper.attempts r.2 ≤ Scraper.attempts s + budget)%nat
  ∧ (∀ id n, r.1 = Some (Scraper.ErrRetriesExhausted id n) →
             Scraper.attempts r.2 = (Scraper.attempts s + budget)%nat
             ∧ id = ID story ∧ n = Scraper.maxRetries
             ∧ retries (Scraper.printed r.2)
               = retries (Scraper.printed s) ++ sched)
  ∧ (∃ new, retries (Scraper.printed r.2) = retries (Scraper.printed s) ++ new
            ∧ new `prefix_of` sched).

(** What a publish call entered in state [s] with [budget] turns left
    does to the seen map and to the topic: the seen map is untouched, and
    the topic gains copies of the one message, at most one per turn, at
    least one when the call reports no error, and exactly that one when
    unacknowledged writes are lost. *)
Definition sends (kafka : nat -> Scraper.Attempt) (story : Story)
           (source : string) (s : Scraper.Scraper) (budget : nat)
           (r : option Scraper.PublishError * Scraper.Scraper) : Prop :=
  Scraper.seenStories r.2 = Scraper.seenStories s
  ∧ ∃ k, Scraper.topic r.2
         = Scraper.topic s ++ replicate k (Scraper.mkMessage source story)
         ∧ (k ≤ budget)%nat
         ∧ (r.1 = None → (1 ≤ k)%nat)
         ∧ (Scraper.failures_are_losses kafka →
            k = match r.1 with None => 1%nat | Some _ => 0%nat end).

(* ===================================================================== *)
(** * Part II: properties                                                 *)
(* ===================================================================== *)

(** ** Byte strings *)

Lemma HasPrefix_spec (s p : string) :
  Strings.HasPrefix s p = true ↔ ∃ rest, s = p +:+ rest.
Proof.
  revert s. induction p as [|c p IH]; intros s; simpl.
  - split; [intros _; by exists s | done].
  - destruct s as [|d s].
    + split; [done | intros [rest Hr]; discriminate Hr].
    + destruct (Ascii.eqb_spec d c) as [->|Hne].
      * rewrite IH. split; intros [rest Hr]; exists rest.
        -- by rewrite Hr.
        -- by injection Hr.
      * split; [done | intros [rest Hr]; injection Hr; congruence].
Qed.

Lemma Contains_spec (s sub : string) :
  Strings.Contains s sub = true ↔ is_substring sub s.
Proof.
  unfold is_substring. induction s as [|c s IH]; simpl.
  - destruct (Strings.HasPrefix "" sub) eqn:Hp.
    + apply HasPrefix_spec in Hp as [rest Hr].
      split; [intros _; by exists "", rest | done].
    + split; [done |]. intros ([|b before] & after & Heq); simpl in Heq.
      * assert (Strings.HasPrefix "" sub = true) as Hp'
          by (apply HasPrefix_spec; eauto).
        congruence.
      * discriminate Heq.
  - destruct (Strings.HasPrefix (String c s) sub) eqn:Hp.
    + apply HasPrefix_spec in Hp as [rest Hr].
      split; [intros _; by exists "", rest | done].
    + rewrite IH. split.
      * intros (before & after & ->). by exists (String c before), after.
      * intros ([|b before] & after & Heq); simpl in Heq.
        -- assert (Strings.HasPrefix (String c s) sub = true) as Hp'
             by (apply HasPrefix_spec; eauto).
           congruence.
        -- injection Heq as _ ->. eauto.
Qed.

Lemma Contains_empty_title (sub : string) :
  Strings.Contains "" sub = true ↔ sub = "".
Proof.
  destruct sub; simpl; split; done.
Qed.

Lemma isASCII_lower_bytes_nonempty (s : string) :
  s ≠ "" → Strings.lower_bytes s ≠ "".
Proof. by destruct s. Qed.

Lemma lower_byte_idem (c : ascii) :
  Strings.lower_byte (Strings.lower_byte c) = Strings.lower_byte c.
Proof. destruct c as [[] [] [] [] [] [] [] []]; reflexivity. Qed.

Lemma lower_upper_byte (c : ascii) :
  Strings.lower_byte (Strings.upper_byte c) = Strings.lower_byte c.
Proof. destruct c as [[] [] [] [] [] [] [] []]; reflexivity. Qed.

Lemma lower_byte_ascii (c : ascii) :
  (Strings.RuneSelf <=? Strings.byte (Strings.lower_byte c))
  = (Strings.RuneSelf <=? Strings.byte c).
Proof. destruct c as [[] [] [] [] [] [] [] []]; reflexivity. Qed.

Lemma upper_byte_ascii (c : ascii) :
  (Strings.RuneSelf <=? Strings.byte (Strings.upper_byte c))
  = (Strings.RuneSelf <=? Strings.byte c).
Proof. destruct c as [[] [] [] [] [] [] [] []]; reflexivity. Qed.

Lemma lower_byte_not_upper (c : ascii) :
  Strings.is_upper c = false → Strings.lower_byte c = c.
Proof. unfold Strings.lower_byte. by intros ->. Qed.

Lemma lower_bytes_no_upper (s : string) :
  Strings.hasUpper s = false → Strings.lower_bytes s = s.
Proof.
  induction s as [|c s IH]; simpl; [done |].
  intros [Hc Hs]%orb_false_iff.
  by rewrite lower_byte_not_upper, IH.
Qed.

(** On an ASCII string both branches of the fast path are the byte loop. *)
Lemma ToLower_ascii (unicodeLower : string -> string) (s : string) :
  Strings.isASCII s = true →
  Strings.ToLower unicodeLower s = Strings.lower_bytes s.
Proof.
  intros Ha. unfold Strings.ToLower. rewrite Ha.
  destruct (Strings.hasUpper s) eqn:Hu; simpl; [done |].
  by rewrite lower_bytes_no_upper.
Qed.

Lemma case_variant_isASCII (s t : string) :
  case_variant s t → Strings.isASCII t = Strings.isASCII s.
Proof.
  induction 1 as [|a b s t Hb _ IH]; simpl; [done |].
  rewrite IH.
  destruct Hb as [->|[->| ->]];
    [done | by rewrite upper_byte_ascii | by rewrite lower_byte_ascii].
Qed.

Lemma case_variant_lower_bytes (s t : string) :
  case_variant s t → Strings.lower_bytes t = Strings.lower_bytes s.
Proof.
  induction 1 as [|a b s t Hb _ IH]; simpl; [done |].
  rewrite IH. f_equal.
  destruct Hb as [->|[->| ->]];
    [done | apply lower_upper_byte | apply lower_byte_idem].
Qed.

(** Changing the case of ASCII letters in an ASCII string does not change
    its lower-cased form. *)
Lemma case_variant_same_fold (unicodeLower : string -> string) (s t : string) :
  Strings.isASCII s = true → case_variant s t →
  same_fold unicodeLower t s.
Proof.
  intros Ha Hv. unfold same_fold.
  rewrite !ToLower_ascii by (by rewrite ?(case_variant_isASCII s t)).
  by apply case_variant_lower_bytes.
Qed.

(** ** The filter engine *)

Lemma populate_lookup (types : list string) (m : gmap string bool) (t : string) (b : bool) :
  populate types m !! t = Some b → b = true ∨ m !! t = Some b.
Proof.
  revert m. induction types as [|u types IH]; intros m; simpl; [by right |].
  intros [->|Hm]%IH; [by left |].
  destruct (decide (u = t)) as [->|Hne].
  - rewrite lookup_insert_eq in Hm. left. congruence.
  - rewrite lookup_insert_ne in Hm by done. by right.
Qed.

Lemma populate_dom (types : list string) (m : gmap string bool) :
  dom (populate types m) = list_to_set types ∪ dom m.
Proof.
  revert m. induction types as [|u types IH]; intros m; simpl.
  - by rewrite (left_id_L ∅ (∪)).
  - rewrite IH, dom_insert_L. apply set_eq. intros x.
    rewrite !elem_of_union, elem_of_singleton. tauto.
Qed.

(** [NewStoryFilter] only ever stores [true] in the type map. *)
Lemma NewStoryFilter_types_wf (cfg : FilterConfig) :
  types_wf (NewStoryFilter cfg).
Proof.
  intros t b [->|Hm]%populate_lookup; [done |].
  by rewrite lookup_empty in Hm.
Qed.

Lemma NewStoryFilter_allowed_types (cfg : FilterConfig) :
  allowed_types (NewStoryFilter cfg) = list_to_set (StoryTypes cfg).
Proof.
  unfold allowed_types. simpl.
  by rewrite populate_dom, dom_empty_L, (right_id_L ∅ (∪)).
Qed.

(** The type test of [Matches] decides the type constraint. *)
Lemma type_test_spec (f : StoryFilter) (story : Story) :
  types_wf f →
  (0 <? Z.of_nat (size (storyTypes f)))
    && negb (index_bool (storyTypes f) (Type_ story)) = false
  ↔ allowed_types f = ∅ ∨ Type_ story ∈ allowed_types f.
Proof.
  intros Hwf. unfold allowed_types, index_bool.
  rewrite andb_false_iff, Z.ltb_ge, negb_false_iff, elem_of_dom.
  rewrite dom_empty_iff_L, <- map_size_empty_iff.
  split; intros [H|H].
  - left. lia.
  - right. destruct (storyTypes f !! Type_ story); [done | discriminate H].
  - left. lia.
  - right. destruct H as [b Hb]. rewrite Hb. simpl. by apply (Hwf _ _ Hb).
Qed.

Section FilterProperties.
Variable unicodeLower : string -> string.
Local Abbreviation ToLower := (Strings.ToLower unicodeLower).

Lemma keyword_loop_spec (titleLower : string) (kws : list string) :
  keyword_loop unicodeLower titleLower kws = true
  ↔ ∃ k, k ∈ kws ∧ Strings.Contains titleLower (ToLower k) = true.
Proof.
  induction kws as [|k kws IH]; simpl.
  - split; [done | intros (k & Hk & _); by apply elem_of_nil in Hk].
  - destruct (Strings.Contains titleLower (ToLower k)) eqn:Hc.
    + split; [intros _ | done]. exists k. split; [left | done].
    + rewrite IH. split; intros (k' & Hk' & Hc').
      * exists k'. split; [by right | done].
      * apply elem_of_cons in Hk' as [->|Hk']; [congruence | eauto].
Qed.

Lemma keyword_loop_title_has_keyword (title : string) (kws : list string) :
  keyword_loop unicodeLower (ToLower title) kws = true
  ↔ title_has_keyword unicodeLower kws title.
Proof.
  rewrite keyword_loop_spec. unfold title_has_keyword.
  by setoid_rewrite Contains_spec.
Qed.

(** The keyword loop only looks at lower-cased forms. *)
Lemma keyword_loop_fold (tl : string) (kws kws' : list string) :
  Forall2 (same_fold unicodeLower) kws' kws →
  keyword_loop unicodeLower tl kws' = keyword_loop unicodeLower tl kws.
Proof.
  induction 1 as [|k' k kws' kws Hk _ IH]; simpl; [done |].
  unfold same_fold in Hk. by rewrite Hk, IH.
Qed.

(** [Matches], one conjunct per test, for an enabled filter. *)
Lemma Matches_enabled (f : StoryFilter) (story : Story) :
  types_wf f → enabled f = true →
  Matches unicodeLower f story = true
  ↔ type_constraint f story
    ∧ score_constraint f story
    ∧ keyword_constraint unicodeLower f story.
Proof.
  intros Hwf Hen.
  unfold Matches, type_constraint, score_constraint, keyword_constraint.
  rewrite Hen. simpl.
  pose proof (type_test_spec f story Hwf) as Ht.
  destruct ((0 <? Z.of_nat (size (storyTypes f)))
            && negb (index_bool (storyTypes f) (Type_ story))) eqn:Htest.
  { split; [done |]. intros [Hty _]. apply Ht in Hty. discriminate Hty. }
  destruct (Z.ltb_spec (Score story) (minimumScore f)) as [Hlt|Hge].
  { split; [done |]. intros (_ & Hsc & _). lia. }
  assert (allowed_types f = ∅ ∨ Type_ story ∈ allowed_types f) as Hty
    by (by apply Ht).
  destruct (keywords f) as [|k kws] eqn:Hk; simpl.
  { split; [intros _; repeat split; auto | done]. }
  pose proof (keyword_loop_title_has_keyword (Title story) (k :: kws)) as Hl.
  simpl in Hl.
  destruct (Strings.Contains (ToLower (Title story)) (ToLower k)) eqn:Hc; simpl.
  - split; [intros _ | done]. repeat split; [done | done |].
    right. by apply Hl.
  - destruct (keyword_loop unicodeLower (ToLower (Title story)) kws)
      eqn:Hloop; simpl.
    + split; [intros _ | done]. repeat split; [done | done |].
      right. by apply Hl.
    + split; [done |]. intros (_ & _ & [Hnil|Hkw]); [done |].
      apply Hl in Hkw. discriminate Hkw.
Qed.

(** C1. Filter AND law: a filter whose [enabled] flag is false lets every
    story through; an enabled filter accepts a story exactly when the type
    constraint (no allowed types, or the story's type among them), the
    score constraint (score at least [minimumScore]) and the keyword
    constraint (no keywords, or some lower-cased keyword a substring of
    the lower-cased title) all hold. *)
Theorem Matches_and_law (f : StoryFilter) (story : Story) :
  types_wf f →
  (enabled f = false → Matches unicodeLower f story = true)
  ∧ (enabled f = true →
     (Matches unicodeLower f story = true
      ↔ type_constraint f story
        ∧ score_constraint f story
        ∧ keyword_constraint unicodeLower f story)).
Proof.
  intros Hwf. split.
  - intros Hoff. unfold Matches. by rewrite Hoff.
  - intros Hon. by apply Matches_enabled.
Qed.
End FilterProperties.

Lemma Matches_and_law_witness :
  types_wf (NewStoryFilter rust_cfg)
  ∧ ((enabled (NewStoryFilter rust_cfg) = false →
      Matches Strings.lower_bytes (NewStoryFilter rust_cfg) rust_story = true)
     ∧ (enabled (NewStoryFilter rust_cfg) = true →
        (Matches Strings.lower_bytes (NewStoryFilter rust_cfg) rust_story = true
         ↔ type_constraint (NewStoryFilter rust_cfg) rust_story
           ∧ score_constraint (NewStoryFilter rust_cfg) rust_story
           ∧ keyword_constraint Strings.lower_bytes
               (NewStoryFilter rust_cfg) rust_story))).
Proof.
  split; [apply NewStoryFilter_types_wf |].
  apply (Matches_and_law Strings.lower_bytes (NewStoryFilter rust_cfg) rust_story).
  apply NewStoryFilter_types_wf.
Defined.

Section KeywordProperties.
Variable unicodeLower : string -> string.
Local Abbreviation ToLower := (Strings.ToLower unicodeLower).

(** [Matches] sees the title and the keywords only through
    [strings.ToLower]. *)
Lemma Matches_same_fold (f : StoryFilter) (story : Story)
      (title' : string) (kws' : list string) :
  same_fold unicodeLower title' (Title story) →
  Forall2 (same_fold unicodeLower) kws' (keywords f) →
  Matches unicodeLower (with_keywords kws' f) (with_Title title' story)
  = Matches unicodeLower f story.
Proof.
  intros Ht Hk. unfold Matches. simpl.
  rewrite (Forall2_length _ _ _ Hk).
  unfold same_fold in Ht. rewrite Ht.
  by rewrite (keyword_loop_fold unicodeLower _ _ _ Hk).
Qed.

(** With a library that folds ASCII case on non-ASCII strings too, any
    change of ASCII letter case keeps the lower-cased form. *)
Lemma case_variant_folds (s t : string) :
  folds_ascii_case unicodeLower → case_variant s t →
  same_fold unicodeLower t s.
Proof.
  intros Hfold Hv. unfold same_fold, Strings.ToLower.
  rewrite (case_variant_isASCII s t Hv).
  destruct (Strings.isASCII s) eqn:Ha; [| by apply Hfold].
  pose proof (case_variant_same_fold unicodeLower s t Ha Hv) as Hsf.
  unfold same_fold, Strings.ToLower in Hsf.
  by rewrite (case_variant_isASCII s t Hv), Ha in Hsf.
Qed.

Lemma case_variants_fold (kws kws' : list string) :
  folds_ascii_case unicodeLower →
  Forall2 case_variant kws kws' →
  Forall2 (same_fold unicodeLower) kws' kws.
Proof.
  intros Hfold Hv. induction Hv as [|k k' kws kws' Hk _ IH]; [constructor |].
  constructor; [by apply case_variant_folds | exact IH].
Qed.

Lemma case_variants_same_fold (kws kws' : list string) :
  Forall (fun k => Strings.isASCII k = true) kws →
  Forall2 case_variant kws kws' →
  Forall2 (same_fold unicodeLower) kws' kws.
Proof.
  intros Ha Hv. induction Hv as [|k k' kws kws' Hk _ IH]; [constructor |].
  apply Forall_cons in Ha as [Hka Ha].
  constructor; [by apply case_variant_same_fold | by apply IH].
Qed.

(** C3 (amended). Keyword OR law: for an enabled filter with at least one
    keyword whose type and score constraints hold, [Matches] accepts the
    story exactly when some lower-cased keyword is a substring of the
    lower-cased title.  The result depends on the title and the keywords
    only through their lower-cased forms.  Changing the case of ASCII
    letters never changes it: outright when the title and the keywords
    are ASCII, and for strings with other bytes as long as the library's
    lower-casing of such strings does not tell the case of ASCII letters
    apart. *)
Theorem Matches_keyword_or_law (f : StoryFilter) (story : Story) :
  types_wf f → enabled f = true →
  type_constraint f story → score_constraint f story →
  keywords f ≠ [] →
  (Matches unicodeLower f story = true
   ↔ ∃ k, k ∈ keywords f
          ∧ is_substring (ToLower k) (ToLower (Title story)))
  ∧ (∀ title' kws',
       same_fold unicodeLower title' (Title story) →
       Forall2 (same_fold unicodeLower) kws' (keywords f) →
       Matches unicodeLower (with_keywords kws' f) (with_Title title' story)
       = Matches unicodeLower f story)
  ∧ (∀ title' kws',
       Strings.isASCII (Title story) = true →
       Forall (fun k => Strings.isASCII k = true) (keywords f) →
       case_variant (Title story) title' →
       Forall2 case_variant (keywords f) kws' →
       Matches unicodeLower (with_keywords kws' f) (with_Title title' story)
       = Matches unicodeLower f story)
  ∧ (folds_ascii_case unicodeLower →
     ∀ title' kws',
       case_variant (Title story) title' →
       Forall2 case_variant (keywords f) kws' →
       Matches unicodeLower (with_keywords kws' f) (with_Title title' story)
       = Matches unicodeLower f story).
Proof.
  intros Hwf Hen Hty Hsc Hkw. split; [| split; [| split]].
  - rewrite (Matches_enabled unicodeLower f story Hwf Hen).
    unfold keyword_constraint, title_has_keyword. split.
    + intros (_ & _ & [Hnil|Hex]); [done | exact Hex].
    + intros Hex. repeat split; [done | done | by right].
  - intros title' kws'. apply Matches_same_fold.
  - intros title' kws' Hta Hka Htv Hkv. apply Matches_same_fold.
    + by apply case_variant_same_fold.
    + by apply case_variants_same_fold.
  - intros Hfold title' kws' Htv Hkv. apply Matches_same_fold.
    + by apply case_variant_folds.
    + by apply case_variants_fold.
Qed.

Lemma len_positive (l : list string) : 0 < Z.of_nat (length l) ↔ l ≠ [].
Proof. destruct l; simpl; split; try done; lia. Qed.

(** A configuration with a keyword enables the filter. *)
Lemma keywords_enable (cfg : FilterConfig) :
  Keywords cfg ≠ [] → enabled (NewStoryFilter cfg) = true.
Proof.
  intros Hk%len_positive%Z.ltb_lt. simpl. rewrite Hk.
  by rewrite orb_true_r.
Qed.

(** C5 (amended). [NewStoryFilter] enables the filter exactly when the
    type list is non-empty, or the keyword list is non-empty, or the
    minimum score is strictly positive. *)
Theorem NewStoryFilter_enabled (cfg : FilterConfig) :
  enabled (NewStoryFilter cfg) = true
  ↔ StoryTypes cfg ≠ [] ∨ Keywords cfg ≠ [] ∨ 0 < MinimumScore cfg.
Proof.
  simpl. rewrite !orb_true_iff, !Z.ltb_lt, !len_positive. tauto.
Qed.

Lemma ToLower_empty : ToLower "" = "".
Proof. reflexivity. Qed.

Lemma is_substring_of_empty (sub : string) : is_substring sub "" → sub = "".
Proof.
  intros (before & after & Heq).
  destruct before; [| discriminate Heq].
  destruct sub; [done | discriminate Heq].
Qed.

(** A non-empty ASCII keyword has a non-empty lower-cased form. *)
Lemma ToLower_ascii_nonempty (k : string) :
  Strings.isASCII k = true → k ≠ "" → ToLower k ≠ "".
Proof.
  intros Ha Hk. rewrite ToLower_ascii by done.
  by apply isASCII_lower_bytes_nonempty.
Qed.

(** C6 (amended). A story with an empty title is rejected by every
    filter built from a configuration with at least one keyword, provided
    no keyword has the empty string as its lower-cased form. *)
Theorem Matches_empty_title (cfg : FilterConfig) (story : Story) :
  Keywords cfg ≠ [] → Title story = "" →
  (∀ k, k ∈ Keywords cfg → ToLower k ≠ "") →
  Matches unicodeLower (NewStoryFilter cfg) story = false.
Proof.
  intros Hkw Htitle Hne.
  apply not_true_is_false. intros Hm.
  apply (Matches_enabled unicodeLower) in Hm as (_ & _ & [Hnil|Hex]).
  - by apply Hkw.
  - destruct Hex as (k & Hk & Hsub). simpl in Hk.
    rewrite Htitle, ToLower_empty in Hsub.
    by apply (Hne k Hk), is_substring_of_empty.
  - apply NewStoryFilter_types_wf.
  - by apply keywords_enable.
Qed.
End KeywordProperties.

Lemma rust_story_type_ok : type_constraint (NewStoryFilter rust_cfg) rust_story.
Proof.
  right. unfold allowed_types. apply elem_of_dom. by exists true.
Qed.

(** A derivation of [case_variant] for two given strings. *)
Ltac case_variant_by_bytes :=
  repeat first
    [ apply cv_empty
    | apply cv_byte;
      [first [by left | right; left; reflexivity | right; right; reflexivity] |] ].

Lemma lower_bytes_folds_ascii_case : folds_ascii_case Strings.lower_bytes.
Proof. intros s t Hv. by apply case_variant_lower_bytes. Qed.

Lemma Matches_keyword_or_law_witness :
  (Matches Strings.lower_bytes (NewStoryFilter rust_cfg) rust_story = true
   ↔ ∃ k, k ∈ keywords (NewStoryFilter rust_cfg)
          ∧ is_substring (Strings.ToLower Strings.lower_bytes k)
              (Strings.ToLower Strings.lower_bytes (Title rust_story)))
  ∧ folds_ascii_case Strings.lower_bytes
  ∧ case_variant (Title rust_story) rust_title_upper
  ∧ Forall2 case_variant (keywords (NewStoryFilter rust_cfg)) rust_keywords_mixed
  ∧ Matches Strings.lower_bytes
      (with_keywords rust_keywords_mixed (NewStoryFilter rust_cfg))
      (with_Title rust_title_upper rust_story)
    = Matches Strings.lower_bytes (NewStoryFilter rust_cfg) rust_story.
Proof.
  assert (case_variant (Title rust_story) rust_title_upper) as Ht
    by (unfold rust_title_upper; simpl; case_variant_by_bytes).
  assert (Forall2 case_variant (keywords (NewStoryFilter rust_cfg))
            rust_keywords_mixed) as Hk
    by (constructor; [case_variant_by_bytes | constructor]).
  destruct (Matches_keyword_or_law Strings.lower_bytes
              (NewStoryFilter rust_cfg) rust_story)
    as (Hiff & _ & _ & Hcase).
  - apply NewStoryFilter_types_wf.
  - reflexivity.
  - apply rust_story_type_ok.
  - unfold score_constraint. simpl. lia.
  - discriminate.
  - split; [exact Hiff |].
    split; [apply lower_bytes_folds_ascii_case |].
    split; [exact Ht | split; [exact Hk |]].
    apply Hcase; [apply lower_bytes_folds_ascii_case | exact Ht | exact Hk].
Defined.

(** C3, as stated, fails: the final sigma is a keyword and the whole
    title, so the story is accepted; with the title in upper case, the
    capital sigma, it is rejected, since that lower-cases to the small
    sigma. *)
Lemma Matches_keyword_or_law_counterexample :
  keywords (NewStoryFilter sigma_cfg) ≠ []
  ∧ enabled (NewStoryFilter sigma_cfg) = true
  ∧ type_constraint (NewStoryFilter sigma_cfg) sigma_story
  ∧ score_constraint (NewStoryFilter sigma_cfg) sigma_story
  ∧ sigma_upper (Title sigma_story) = capital_sigma
  ∧ sigma_lower capital_sigma = small_sigma
  ∧ Matches sigma_lower (NewStoryFilter sigma_cfg) sigma_story = true
  ∧ Matches sigma_lower (NewStoryFilter sigma_cfg)
      (with_Title capital_sigma sigma_story) = false.
Proof.
  split; [discriminate | split; [reflexivity |]].
  split; [left; apply dom_empty_L |].
  split; [unfold score_constraint; simpl; lia |].
  repeat split; reflexivity.
Qed.

(** C5, as stated, fails: a negative minimum score is non-zero, yet the
    filter is not enabled. *)
Lemma NewStoryFilter_enabled_counterexample :
  (StoryTypes negative_score_cfg ≠ []
   ∨ Keywords negative_score_cfg ≠ []
   ∨ MinimumScore negative_score_cfg ≠ 0)
  ∧ enabled (NewStoryFilter negative_score_cfg) = false.
Proof. split; [right; right; discriminate | reflexivity]. Qed.

(** C6, as stated, fails: the empty keyword is a substring of the empty
    title, so the story is accepted. *)
Lemma Matches_empty_title_counterexample :
  Keywords empty_keyword_cfg ≠ []
  ∧ Title untitled_story = ""
  ∧ Matches Strings.lower_bytes (NewStoryFilter empty_keyword_cfg)
      untitled_story = true.
Proof. split; [discriminate | split; reflexivity]. Qed.

Lemma Matches_empty_title_witness :
  Keywords rust_cfg ≠ []
  ∧ Title untitled_story = ""
  ∧ (∀ k, k ∈ Keywords rust_cfg → Strings.ToLower Strings.lower_bytes k ≠ "")
  ∧ Matches Strings.lower_bytes (NewStoryFilter rust_cfg) untitled_story = false.
Proof.
  assert (∀ k, k ∈ Keywords rust_cfg →
               Strings.ToLower Strings.lower_bytes k ≠ "") as Hne.
  { intros k Hk. apply list_elem_of_singleton in Hk as ->. discriminate. }
  split; [discriminate | split; [reflexivity | split; [exact Hne |]]].
  apply (Matches_empty_title Strings.lower_bytes rust_cfg untitled_story);
    [discriminate | reflexivity | exact Hne].
Defined.

(** ** The query layer: sorting *)

Section SortSliceProperties.
Context {A : Type} (less : A → A → bool) (le : relation A).
(** [le] is the order [less] decides: transitive, and of two elements
    that are not [less] one way, the other comes first. *)
Hypothesis le_trans : Transitive le.
Hypothesis less_le : ∀ x y, less x y = true → le x y.
Hypothesis not_less_le : ∀ x y, less x y = false → le y x.

Lemma sift_Permutation (x : A) (rprefix : list A) :
  sift less x rprefix ≡ₚ x :: rprefix.
Proof.
  induction rprefix as [|p rest IH]; simpl; [done |].
  destruct (less x p); [| done].
  rewrite IH. apply Permutation_swap.
Qed.

Lemma sift_sorted (x : A) (rprefix : list A) :
  StronglySorted (flip le) rprefix →
  StronglySorted (flip le) (sift less x rprefix).
Proof.
  induction rprefix as [|p rest IH]; simpl; intros Hs.
  - repeat constructor.
  - apply StronglySorted_cons in Hs as [Hp Hrest].
    destruct (less x p) eqn:Hlt.
    + apply StronglySorted_cons. split; [| by apply IH].
      rewrite sift_Permutation. constructor; [| done].
      by apply less_le.
    + apply not_less_le in Hlt.
      apply StronglySorted_cons. split.
      * constructor; [done |].
        eapply Forall_impl; [exact Hp |].
        intros y Hy. unfold flip in *. by etrans.
      * by apply StronglySorted_cons.
Qed.

Lemma sift_all_Permutation (data acc : list A) :
  fold_left (fun rprefix x => sift less x rprefix) data acc
  ≡ₚ data ++ acc.
Proof.
  revert acc. induction data as [|x data IH]; intros acc; simpl; [done |].
  rewrite IH, sift_Permutation. by rewrite Permutation_middle.
Qed.

Lemma sift_all_sorted (data acc : list A) :
  StronglySorted (flip le) acc →
  StronglySorted (flip le)
    (fold_left (fun rprefix x => sift less x rprefix) data acc).
Proof.
  revert acc. induction data as [|x data IH]; intros acc Hs; simpl; [done |].
  by apply IH, sift_sorted.
Qed.

Lemma StronglySorted_rev (l : list A) :
  StronglySorted (flip le) l → StronglySorted le (rev l).
Proof.
  induction l as [|x l IH]; simpl; intros Hs; [constructor |].
  apply StronglySorted_cons in Hs as [Hx Hl].
  apply StronglySorted_app_2; [| by apply IH | repeat constructor].
  intros y z Hy Hz. apply list_elem_of_singleton in Hz as ->.
  rewrite Forall_forall in Hx. apply Hx.
  by apply list_elem_of_In, in_rev, list_elem_of_In.
Qed.

Lemma sort_Slice_Permutation (data : list A) : sort_Slice less data ≡ₚ data.
Proof.
  unfold sort_Slice. rewrite <- Permutation_rev, sift_all_Permutation.
  by rewrite app_nil_r.
Qed.

Lemma sort_Slice_sorted (data : list A) :
  StronglySorted le (sort_Slice less data).
Proof. apply StronglySorted_rev, sift_all_sorted. constructor. Qed.
End SortSliceProperties.

Lemma filter_Permutation_bool {A : Type} (f : A → bool) (l l' : list A) :
  l ≡ₚ l' → List.filter f l ≡ₚ List.filter f l'.
Proof.
  induction 1 as [|x l l' _ IH|x y l|l l' l'' _ IH1 _ IH2]; simpl.
  - done.
  - destruct (f x); by rewrite IH.
  - destruct (f x), (f y); try done. apply Permutation_swap.
  - by etrans.
Qed.

#[local] Instance time_ascending_trans : Transitive time_ascending.
Proof. unfold time_ascending. intros x y z ??. lia. Qed.
#[local] Instance time_descending_trans : Transitive time_descending.
Proof. unfold time_descending. intros x y z ??. lia. Qed.
#[local] Instance score_descending_trans : Transitive score_descending.
Proof. unfold score_descending. intros x y z ??. lia. Qed.

Lemma sort_oldest_sorted (l : list Story) :
  StronglySorted time_ascending (sort_Slice (fun a b => Time_ a <? Time_ b) l).
Proof.
  apply sort_Slice_sorted; [apply _ | |]; unfold time_ascending; intros x y.
  - rewrite Z.ltb_lt. lia.
  - rewrite Z.ltb_ge. lia.
Qed.

Lemma sort_latest_sorted (l : list Story) :
  StronglySorted time_descending (sort_Slice (fun a b => Time_ b <? Time_ a) l).
Proof.
  apply sort_Slice_sorted; [apply _ | |]; unfold time_descending; intros x y.
  - rewrite Z.ltb_lt. lia.
  - rewrite Z.ltb_ge. lia.
Qed.

Lemma sort_popularity_sorted (l : list Story) :
  StronglySorted score_descending (sort_Slice (fun a b => Score b <? Score a) l).
Proof.
  apply sort_Slice_sorted; [apply _ | |]; unfold score_descending; intros x y.
  - rewrite Z.ltb_lt. lia.
  - rewrite Z.ltb_ge. lia.
Qed.

(** Membership in a three-element list, one case per element. *)
Ltac one_of_three H :=
  apply elem_of_cons in H as [->|H];
  [| apply elem_of_cons in H as [->|H];
     [| apply list_elem_of_singleton in H as ->]].

Section QueryProperties.
Variable Atoi : string → option Z.
Variable ParseRFC3339 : string → option Z.
Local Abbreviation bounds := (parseQuery Atoi ParseRFC3339).
Local Abbreviation reply := (respond Atoi ParseRFC3339).

Lemma sortStories_Permutation (sortBy : string) (l : list Story) :
  sortStories sortBy l ≡ₚ l.
Proof.
  unfold sortStories.
  destruct (String.eqb sortBy "oldest"); [apply sort_Slice_Permutation |].
  destruct (String.eqb sortBy "popularity"); apply sort_Slice_Permutation.
Qed.

Lemma respond_body_Permutation (stories : list Story) (r : Query) :
  body (reply stories r) ≡ₚ List.filter (kept (bounds r)) stories.
Proof. apply sortStories_Permutation. Qed.

(** With distinct sort keys the order of the response does not depend
    on the order in which the index was enumerated. *)
Lemma respond_three_items (l : list Story) (sortBy : string)
      (R : relation Story) (answer : list Story) :
  enumerates l three_items →
  StronglySorted R (body (reply l (with_sort sortBy no_params))) →
  StronglySorted R answer →
  answer ≡ₚ [item_200; item_300; item_100] →
  (∀ x y, x ∈ [item_200; item_300; item_100] →
          y ∈ [item_200; item_300; item_100] → R x y → R y x → x = y) →
  body (reply l (with_sort sortBy no_params)) = answer.
Proof.
  intros Hl Hout Hans Hperm Hanti.
  assert (body (reply l (with_sort sortBy no_params))
          ≡ₚ [item_200; item_300; item_100]) as Hbody.
  { rewrite respond_body_Permutation.
    rewrite (filter_Permutation_bool _ _ _ Hl). reflexivity. }
  apply (StronglySorted_unique_strong R); [| done | done | by rewrite Hperm].
  intros x y Hx Hy. apply Hanti; [by rewrite <- Hbody | by rewrite <- Hperm].
Qed.

(** C7. The response is the kept items rearranged by the sort key:
    [oldest] gives ascending timestamps, [popularity] descending scores,
    [latest] descending timestamps, and any other value of the parameter,
    the absent one included, answers as [latest] does.  For the index
    holding timestamps 100, 300, 200 with scores 5, 50, 20, whatever
    order the index is enumerated in: [oldest] answers 100, 200, 300;
    [latest] and no parameter answer 300, 200, 100; [popularity] answers
    300, 200, 100, the scores being 50, 20, 5. *)
Theorem handleGetStories_sort_order (stories : list Story) (r : Query) :
  (∀ sortBy, body (reply stories (with_sort sortBy r))
             ≡ₚ List.filter (kept (bounds r)) stories)
  ∧ StronglySorted time_ascending
      (body (reply stories (with_sort "oldest" r)))
  ∧ StronglySorted score_descending
      (body (reply stories (with_sort "popularity" r)))
  ∧ StronglySorted time_descending
      (body (reply stories (with_sort "latest" r)))
  ∧ (∀ sortBy, sortBy ≠ "oldest" → sortBy ≠ "popularity" →
       reply stories (with_sort sortBy r)
       = reply stories (with_sort "latest" r))
  ∧ (∀ l, enumerates l three_items →
       body (reply l (with_sort "oldest" no_params))
       = [item_100; item_200; item_300]
       ∧ body (reply l (with_sort "latest" no_params))
         = [item_300; item_200; item_100]
       ∧ body (reply l no_params) = [item_300; item_200; item_100]
       ∧ body (reply l (with_sort "popularity" no_params))
         = [item_300; item_200; item_100]
       ∧ map Score [item_300; item_200; item_100] = [50; 20; 5]).
Proof.
  split; [| split; [| split; [| split; [| split]]]].
  - intros sortBy. apply (respond_body_Permutation stories (with_sort sortBy r)).
  - apply sort_oldest_sorted.
  - apply sort_popularity_sorted.
  - apply sort_latest_sorted.
  - intros sortBy Ho Hp. unfold respond. simpl. f_equal.
    unfold sortStories.
    destruct (String.eqb_spec sortBy "oldest") as [Heq|_]; [done |].
    destruct (String.eqb_spec sortBy "popularity") as [Heq|_]; [done |].
    reflexivity.
  - intros l Hl.
    assert (∀ x y : Story,
              x ∈ [item_200; item_300; item_100] →
              y ∈ [item_200; item_300; item_100] →
              Time_ x = Time_ y ∨ Score x = Score y → x = y) as Hkeys.
    { intros x y Hx Hy Hxy. one_of_three Hx; one_of_three Hy;
        try reflexivity; destruct Hxy as [Hxy|Hxy]; discriminate Hxy. }
    split; [| split; [| split; [| split]]].
    + apply (respond_three_items l "oldest" time_ascending); try done.
      * apply sort_oldest_sorted.
      * repeat constructor; unfold time_ascending; simpl; lia.
      * apply (Permutation_cons_append [item_200; item_300] item_100).
      * unfold time_ascending. intros x y Hx Hy ??.
        apply Hkeys; [done | done | left; lia].
    + apply (respond_three_items l "latest" time_descending); try done.
      * apply sort_latest_sorted.
      * repeat constructor; unfold time_descending; simpl; lia.
      * apply Permutation_swap.
      * unfold time_descending. intros x y Hx Hy ??.
        apply Hkeys; [done | done | left; lia].
    + apply (respond_three_items l "" time_descending); try done.
      * apply sort_latest_sorted.
      * repeat constructor; unfold time_descending; simpl; lia.
      * apply Permutation_swap.
      * unfold time_descending. intros x y Hx Hy ??.
        apply Hkeys; [done | done | left; lia].
    + apply (respond_three_items l "popularity" score_descending); try done.
      * apply sort_popularity_sorted.
      * repeat constructor; unfold score_descending; simpl; lia.
      * apply Permutation_swap.
      * unfold score_descending. intros x y Hx Hy ??.
        apply Hkeys; [done | done | right; lia].
    + reflexivity.
Qed.
End QueryProperties.

(** ** The query layer: range constraints and parameters *)

Section RangeProperties.
Variable Atoi : string → option Z.
Variable ParseRFC3339 : string → option Z.
Local Abbreviation bounds := (parseQuery Atoi ParseRFC3339).
Local Abbreviation reply := (respond Atoi ParseRFC3339).

Lemma kept_spec (b : Bounds) (story : Story) :
  kept b story = true
  ↔ minScore b <= Score story <= maxScore b
    ∧ before_since b story = false
    ∧ after_until b story = false.
Proof.
  unfold kept, score_out.
  destruct (Z.ltb_spec (Score story) (minScore b));
    destruct (Z.ltb_spec (maxScore b) (Score story)); simpl;
    try (split; [done | intros [? _]; lia]).
  destruct (before_since b story), (after_until b story);
    split; try done; intros (_ & ? & ?); done.
Qed.

Lemma elem_of_reply (stories : list Story) (r : Query) (story : Story) :
  story ∈ body (reply stories r)
  ↔ story ∈ stories ∧ kept (bounds r) story = true.
Proof.
  rewrite (respond_body_Permutation Atoi ParseRFC3339 stories r).
  rewrite !list_elem_of_In. apply filter_In.
Qed.

Lemma default_maxScore_value : default_maxScore = 2147483647.
Proof. reflexivity. Qed.

(** C4 (amended). The score bounds are inclusive: an item is in the
    response exactly when it is stored, its score lies between the lower
    and the upper bound, both included, and the timestamp tests pass;
    one unit below the lower or above the upper bound it is left out.  A
    [minScore] or [maxScore] that parses is the bound.  Without
    [minScore] the lower bound is 0, and without [maxScore] every score
    up to 2147483647 is within the upper bound. *)
Theorem handleGetStories_score_range
        (stories : list Story) (r : Query) (story : Story) :
  (story ∈ body (reply stories r)
   ↔ story ∈ stories
     ∧ minScore (bounds r) <= Score story <= maxScore (bounds r)
     ∧ before_since (bounds r) story = false
     ∧ after_until (bounds r) story = false)
  ∧ (Score story = minScore (bounds r) - 1 → story ∉ body (reply stories r))
  ∧ (Score story = maxScore (bounds r) + 1 → story ∉ body (reply stories r))
  ∧ (∀ lo, q_minScore r ≠ "" → Atoi (q_minScore r) = Some lo →
           minScore (bounds r) = lo)
  ∧ (∀ hi, q_maxScore r ≠ "" → Atoi (q_maxScore r) = Some hi →
           maxScore (bounds r) = hi)
  ∧ (q_minScore r = "" → minScore (bounds r) = 0)
  ∧ (q_maxScore r = "" → 2147483647 <= maxScore (bounds r)).
Proof.
  assert (story ∈ body (reply stories r)
          ↔ story ∈ stories
            ∧ minScore (bounds r) <= Score story <= maxScore (bounds r)
            ∧ before_since (bounds r) story = false
            ∧ after_until (bounds r) story = false) as Hin.
  { by rewrite elem_of_reply, kept_spec. }
  split; [exact Hin |].
  split; [intros Hs (_ & Hr & _)%Hin; lia |].
  split; [intros Hs (_ & Hr & _)%Hin; lia |].
  split; [| split; [| split]].
  - intros lo Hne Hlo. simpl. rewrite Hlo.
    by destruct (String.eqb_spec (q_minScore r) "").
  - intros hi Hne Hhi. simpl. rewrite Hhi.
    by destruct (String.eqb_spec (q_maxScore r) "").
  - intros Hq. simpl. by rewrite Hq.
  - intros Hq. simpl. rewrite Hq. simpl. rewrite default_maxScore_value. lia.
Qed.

Lemma reply_ext (stories : list Story) (r r' : Query) :
  (∀ story, kept (bounds r) story = kept (bounds r') story) →
  q_sort r = q_sort r' →
  reply stories r = reply stories r'.
Proof.
  intros Hk Hs. unfold respond. rewrite Hs. do 2 f_equal.
  apply filter_ext. exact Hk.
Qed.

(** C9. The handler always answers with status 200, and a parameter
    that does not parse is treated as absent: the response is the one
    the same request gives without that parameter. *)
Theorem handleGetStories_malformed_ignored (stories : list Story) (r : Query) :
  status (reply stories r) = 200
  ∧ (Atoi (q_minScore r) = None →
     reply stories r = reply stories (with_minScore "" r))
  ∧ (Atoi (q_maxScore r) = None →
     reply stories r = reply stories (with_maxScore "" r))
  ∧ (ParseRFC3339 (q_since r) = None →
     reply stories r = reply stories (with_since "" r))
  ∧ (ParseRFC3339 (q_until r) = None →
     reply stories r = reply stories (with_until "" r)).
Proof.
  split; [reflexivity |].
  split; [| split; [| split]]; intros Hbad;
    (apply reply_ext; [| reflexivity]); intros story;
    unfold kept, score_out, before_since, after_until; simpl;
    rewrite Hbad.
  - by destruct (String.eqb (q_minScore r) "").
  - by destruct (String.eqb (q_maxScore r) "").
  - by destruct (String.eqb (q_since r) "").
  - by destruct (String.eqb (q_until r) "").
Qed.

(** C10. A [since] or [until] value that parses to a Unix time of zero
    or less is treated as if the parameter were absent: the response is
    the one the request gives without it, and no item fails the
    corresponding timestamp test, whatever its time. *)
Theorem handleGetStories_epoch_as_absent
        (stories : list Story) (r : Query) (t : Z) :
  (ParseRFC3339 (q_since r) = Some t → t <= 0 →
   reply stories r = reply stories (with_since "" r)
   ∧ ∀ story, before_since (bounds r) story = false)
  ∧ (ParseRFC3339 (q_until r) = Some t → t <= 0 →
     reply stories r = reply stories (with_until "" r)
     ∧ ∀ story, after_until (bounds r) story = false).
Proof.
  split; intros Hp Ht.
  - assert (∀ story, before_since (bounds r) story = false) as Hoff.
    { intros story. unfold before_since. simpl. rewrite Hp.
      destruct (String.eqb (q_since r) ""); simpl; [done |].
      destruct (Z.ltb_spec 0 t); [lia | done]. }
    split; [| exact Hoff].
    apply reply_ext; [| reflexivity]. intros story. unfold kept.
    rewrite Hoff. reflexivity.
  - assert (∀ story, after_until (bounds r) story = false) as Hoff.
    { intros story. unfold after_until. simpl. rewrite Hp.
      destruct (String.eqb (q_until r) ""); simpl; [done |].
      destruct (Z.ltb_spec 0 t); [lia | done]. }
    split; [| exact Hoff].
    apply reply_ext; [| reflexivity]. intros story. unfold kept.
    rewrite Hoff. reflexivity.
Qed.
End RangeProperties.

Lemma handleGetStories_sort_order_witness :
  "newest" ≠ "oldest" ∧ "newest" ≠ "popularity"
  ∧ enumerates (GetAllStories three_items) three_items
  ∧ respond Atoi_decimal rfc3339_table (GetAllStories three_items)
      (with_sort "newest" no_params)
    = respond Atoi_decimal rfc3339_table (GetAllStories three_items)
        (with_sort "latest" no_params)
  ∧ body (handleGetStories Atoi_decimal rfc3339_table three_items
            (with_sort "oldest" no_params))
    = [item_100; item_200; item_300]
  ∧ body (handleGetStories Atoi_decimal rfc3339_table three_items
            (with_sort "popularity" no_params))
    = [item_300; item_200; item_100].
Proof.
  destruct (handleGetStories_sort_order Atoi_decimal rfc3339_table
              (GetAllStories three_items) no_params)
    as (_ & _ & _ & _ & Hdefault & Hexample).
  assert (enumerates (GetAllStories three_items) three_items) as Henum
    by (unfold enumerates; reflexivity).
  destruct (Hexample (GetAllStories three_items) Henum)
    as (Hold & _ & _ & Hpop & _).
  split; [discriminate | split; [discriminate | split; [exact Henum |]]].
  split; [apply Hdefault; discriminate |].
  split; [exact Hold | exact Hpop].
Defined.

(** C4, as stated, fails: with neither parameter supplied an item with a
    negative score is stored but left out of the response. *)
Lemma handleGetStories_score_range_counterexample :
  downvoted_index !! ID downvoted = Some downvoted
  ∧ q_minScore no_params = "" ∧ q_maxScore no_params = ""
  ∧ score_out (parseQuery Atoi_decimal rfc3339_table no_params) downvoted = true
  ∧ body (handleGetStories Atoi_decimal rfc3339_table downvoted_index no_params)
    = [].
Proof. repeat split; reflexivity. Qed.

Lemma handleGetStories_score_range_witness :
  q_minScore score_10_to_20 ≠ ""
  ∧ Atoi_decimal (q_minScore score_10_to_20) = Some 10
  ∧ q_maxScore score_10_to_20 ≠ ""
  ∧ Atoi_decimal (q_maxScore score_10_to_20) = Some 20
  ∧ minScore (parseQuery Atoi_decimal rfc3339_table score_10_to_20) = 10
  ∧ maxScore (parseQuery Atoi_decimal rfc3339_table score_10_to_20) = 20
  ∧ scored 2 10
    ∈ body (respond Atoi_decimal rfc3339_table scored_items score_10_to_20)
  ∧ scored 3 20
    ∈ body (respond Atoi_decimal rfc3339_table scored_items score_10_to_20)
  ∧ (scored 1 9
     ∉ body (respond Atoi_decimal rfc3339_table scored_items score_10_to_20))
  ∧ (scored 4 21
     ∉ body (respond Atoi_decimal rfc3339_table scored_items score_10_to_20)).
Proof.
  destruct (handleGetStories_score_range Atoi_decimal rfc3339_table
              scored_items score_10_to_20 (scored 2 10))
    as (Hin10 & _ & _ & Hlo & Hhi & _ & _).
  destruct (handleGetStories_score_range Atoi_decimal rfc3339_table
              scored_items score_10_to_20 (scored 3 20)) as (Hin20 & _).
  destruct (handleGetStories_score_range Atoi_decimal rfc3339_table
              scored_items score_10_to_20 (scored 1 9)) as (_ & Hbelow & _).
  destruct (handleGetStories_score_range Atoi_decimal rfc3339_table
              scored_items score_10_to_20 (scored 4 21))
    as (_ & _ & Habove & _).
  split; [discriminate | split; [reflexivity |]].
  split; [discriminate | split; [reflexivity |]].
  split; [apply Hlo; [discriminate | reflexivity] |].
  split; [apply Hhi; [discriminate | reflexivity] |].
  split; [apply Hin10; split; [right; left | repeat split; discriminate] |].
  split; [apply Hin20; split; [do 2 right; left | repeat split; discriminate] |].
  split; [apply Hbelow; reflexivity | apply Habove; reflexivity].
Defined.

Lemma handleGetStories_malformed_ignored_witness :
  Atoi_decimal (q_minScore malformed_params) = None
  ∧ Atoi_decimal (q_maxScore malformed_params) = None
  ∧ rfc3339_table (q_since malformed_params) = None
  ∧ rfc3339_table (q_until malformed_params) = None
  ∧ status (respond Atoi_decimal rfc3339_table scored_items malformed_params)
    = 200
  ∧ respond Atoi_decimal rfc3339_table scored_items malformed_params
    = respond Atoi_decimal rfc3339_table scored_items
        (with_minScore "" malformed_params)
  ∧ respond Atoi_decimal rfc3339_table scored_items malformed_params
    = respond Atoi_decimal rfc3339_table scored_items
        (with_until "" malformed_params).
Proof.
  destruct (handleGetStories_malformed_ignored Atoi_decimal rfc3339_table
              scored_items malformed_params)
    as (Hstatus & Hmin & _ & _ & Huntil).
  do 4 (split; [reflexivity |]).
  split; [exact Hstatus |].
  split; [apply Hmin; reflexivity | apply Huntil; reflexivity].
Defined.

Lemma handleGetStories_epoch_as_absent_witness :
  rfc3339_table (q_since since_epoch) = Some 0
  ∧ rfc3339_table (q_until until_before_epoch) = Some (-60)
  ∧ respond Atoi_decimal rfc3339_table scored_items since_epoch
    = respond Atoi_decimal rfc3339_table scored_items
        (with_since "" since_epoch)
  ∧ respond Atoi_decimal rfc3339_table scored_items until_before_epoch
    = respond Atoi_decimal rfc3339_table scored_items
        (with_until "" until_before_epoch).
Proof.
  destruct (handleGetStories_epoch_as_absent Atoi_decimal rfc3339_table
              scored_items since_epoch 0) as (Hsince & _).
  destruct (handleGetStories_epoch_as_absent Atoi_decimal rfc3339_table
              scored_items until_before_epoch (-60)) as (_ & Huntil).
  split; [reflexivity | split; [reflexivity |]].
  split; [apply Hsince; [reflexivity | lia] | apply Huntil; [reflexivity | lia]].
Defined.

(** ** The consumer loop *)

Section ConsumerProperties.
Variable unicodeLower : string → string.
Variable Unmarshal : string → option Story.
Local Abbreviation consume := (consumeMessages unicodeLower Unmarshal).
Local Abbreviation accepts := (Matches unicodeLower).
Local Abbreviation skipped := (discarded unicodeLower Unmarshal).

Lemma consume_filter (fetches : list Fetch) (s : Server) :
  filter (consume fetches s) = filter s.
Proof.
  revert s. induction fetches as [|x fetches IH]; intros s; [done |].
  destruct x as [| | |value]; simpl; [done | done | by rewrite IH |].
  destruct (Unmarshal value) as [story|]; [| by rewrite IH].
  destruct (accepts (filter s) story); simpl; by rewrite IH.
Qed.

(** Fetches that do not end the loop are followed by the rest of the
    stream. *)
Lemma consume_app (pre post : list Fetch) (s : Server) :
  Forall (fun x => continues x = true) pre →
  consume (pre ++ post) s = consume post (consume pre s).
Proof.
  revert s. induction pre as [|x pre IH]; intros s Hpre; [done |].
  apply Forall_cons in Hpre as [Hx Hpre].
  destruct x as [| | |value]; simpl; [done | done | by apply IH |].
  destruct (Unmarshal value) as [story|]; [| by apply IH].
  destruct (accepts (filter s) story); simpl; by apply IH.
Qed.

Lemma discarded_continues (f : StoryFilter) (x : Fetch) :
  skipped f x = true → continues x = true.
Proof. by destruct x. Qed.

Lemma consume_discarded (pre : list Fetch) (s : Server) :
  Forall (fun x => skipped (filter s) x = true) pre →
  store (consume pre s) = store s.
Proof.
  revert s. induction pre as [|x pre IH]; intros s Hpre; [done |].
  apply Forall_cons in Hpre as [Hx Hpre].
  destruct x as [| | |value]; simpl in *; [done | done | by rewrite IH |].
  destruct (Unmarshal value) as [story|]; [| by rewrite IH].
  destruct (accepts (filter s) story); [done | simpl; by rewrite IH].
Qed.

Lemma consume_accepts (value : string) (story : Story) (s : Server) :
  Unmarshal value = Some story → accepts (filter s) story = true →
  consume [FetchMessage value] s
  = printf (LogStored story) (store_AddStory story s).
Proof. intros Hd Hm. simpl. by rewrite Hd, Hm. Qed.

(** C8. One message never stops the loop.  A payload that does not
    decode is logged and the loop goes on with the rest of the stream and
    the index as it was; so is a decoded story the filter rejects.  After
    any run of such messages a payload that decodes to a story the filter
    accepts is stored under its id; more generally it is stored after any
    fetches that do not shut the loop down. *)
Theorem consumeMessages_never_blocked (s : Server) :
  (∀ value rest,
     Unmarshal value = None →
     consume (FetchMessage value :: rest) s
     = consume rest (printf LogUnmarshalError s)
     ∧ store (printf LogUnmarshalError s) = store s)
  ∧ (∀ value story rest,
       Unmarshal value = Some story → accepts (filter s) story = false →
       consume (FetchMessage value :: rest) s
       = consume rest (printf (LogFiltered story) s)
       ∧ store (printf (LogFiltered story) s) = store s)
  ∧ (∀ pre value story,
       Forall (fun x => skipped (filter s) x = true) pre →
       Unmarshal value = Some story → accepts (filter s) story = true →
       store (consume (pre ++ [FetchMessage value]) s)
       = <[ID story := story]> (store s))
  ∧ (∀ pre value story,
       Forall (fun x => continues x = true) pre →
       Unmarshal value = Some story → accepts (filter s) story = true →
       store (consume (pre ++ [FetchMessage value]) s) !! ID story
       = Some story).
Proof.
  split; [| split; [| split]].
  - intros value rest Hd. simpl. by rewrite Hd.
  - intros value story rest Hd Hm. simpl. by rewrite Hd, Hm.
  - intros pre value story Hpre Hd Hm.
    rewrite consume_app
      by (eapply Forall_impl; [exact Hpre | apply discarded_continues]).
    rewrite (consume_accepts value story) by (by rewrite ?consume_filter).
    simpl. unfold AddStory. by rewrite consume_discarded.
  - intros pre value story Hpre Hd Hm.
    rewrite consume_app by done.
    rewrite (consume_accepts value story) by (by rewrite ?consume_filter).
    simpl. unfold AddStory. apply lookup_insert_eq.
Qed.
End ConsumerProperties.

Lemma consumeMessages_never_blocked_witness :
  Forall (fun x => discarded Strings.lower_bytes decode_table
                     (filter rust_server) x = true) bad_then_good
  ∧ decode_table "rust-story" = Some rust_story
  ∧ Matches Strings.lower_bytes (filter rust_server) rust_story = true
  ∧ store (consumeMessages Strings.lower_bytes decode_table
             (bad_then_good ++ [FetchMessage "rust-story"]) rust_server)
    = <[ID rust_story := rust_story]> (store rust_server).
Proof.
  assert (Forall (fun x => discarded Strings.lower_bytes decode_table
                             (filter rust_server) x = true) bad_then_good)
    as Hbad by (repeat constructor).
  split; [exact Hbad | split; [reflexivity | split; [reflexivity |]]].
  destruct (consumeMessages_never_blocked Strings.lower_bytes decode_table
              rust_server) as (_ & _ & Hstored & _).
  apply Hstored; [exact Hbad | reflexivity | reflexivity].
Defined.

(** ** The scraper: at most one broker message per id *)

Lemma messages_for_NoDup (id : Z) (s : Scraper.Scraper) :
  NoDup (Scraper.published_ids s) → (Scraper.messages_for id s ≤ 1)%nat.
Proof.
  unfold Scraper.published_ids, Scraper.messages_for.
  induction (Scraper.topic s) as [|m l IH]; simpl; [lia |].
  intros [Hm Hl]%NoDup_cons.
  destruct (Z.eqb_spec (ID (Scraper.Value m)) id) as [<-|_]; [| by apply IH].
  simpl. enough (List.filter (fun m' => ID (Scraper.Value m')
                                        =? ID (Scraper.Value m)) l = []) as ->
    by (simpl; lia).
  clear IH Hl. induction l as [|m' l IH]; simpl; [done |].
  apply not_elem_of_cons in Hm as [Hne Hm].
  destruct (Z.eqb_spec (ID (Scraper.Value m')) (ID (Scraper.Value m)));
    [congruence | by apply IH].
Qed.

Lemma filter_replicate_length {A : Type} (P : A → bool) (l : list A)
      (k : nat) (x : A) :
  length (List.filter P (l ++ replicate k x))
  = (length (List.filter P l) + (if P x then k else 0))%nat.
Proof.
  rewrite List.filter_app, length_app. f_equal.
  destruct (P x) eqn:Hx; induction k as [|k IH]; simpl; rewrite ?Hx;
    simpl; lia.
Qed.

Section ScraperProperties.
Import Scraper.
Variable kafka : nat → Attempt.
Local Abbreviation publish := (publishStoryToKafka kafka).
Local Abbreviation add := (addAndPublishStory kafka).

Section Sends.
Variable story : Story.
Variable source : string.
Local Abbreviation msg := (mkMessage source story).
Local Abbreviation sent := (sends kafka story source).

Lemma sends_stop (s s' : Scraper) (e : option PublishError) (j budget : nat) :
  seenStories s' = seenStories s →
  topic s' = topic s ++ replicate j msg →
  (j ≤ budget)%nat →
  (e = None → (1 ≤ j)%nat) →
  (failures_are_losses kafka →
   j = match e with None => 1%nat | Some _ => 0%nat end) →
  sent s budget (e, s').
Proof. intros Hs Ht Hj He Hf. split; [done |]. by exists j. Qed.

Lemma sends_step (s s' : Scraper) (j budget : nat)
      (r : option PublishError * Scraper) :
  seenStories s' = seenStories s →
  topic s' = topic s ++ replicate j msg →
  (j ≤ 1)%nat →
  (failures_are_losses kafka → j = 0%nat) →
  sent s' budget r →
  sent s (S budget) r.
Proof.
  intros Hs Ht Hj Hf (Hs' & k & Hk & Hb & Hn & Hfk).
  split; [congruence |]. exists (j + k)%nat.
  split; [by rewrite Hk, Ht, replicate_add, app_assoc |].
  split; [lia |]. split; [intros He; specialize (Hn He); lia |].
  intros Hl. rewrite (Hf Hl), (Hfk Hl). done.
Qed.

Lemma retry_loop_sends (remaining : nat) (attempt backoff : Z) (s : Scraper) :
  sent s remaining (retry_loop kafka remaining attempt backoff story source s).
Proof.
  revert attempt backoff s.
  induction remaining as [|n IH]; intros attempt backoff s.
  { apply sends_stop with (j := 0%nat);
      [done | by rewrite app_nil_r | done | done | done]. }
  cbn [retry_loop].
  destruct (cancelled s).
  { apply sends_stop with (j := 0%nat);
      [done | by rewrite app_nil_r | lia | done | done]. }
  cbv zeta. unfold unacknowledged.
  assert (failures_are_losses kafka →
          result (kafka (attempts s)) ≠ WriteOk →
          landed (kafka (attempts s)) = false) as Hlost
    by (intros Hf; apply Hf).
  destruct (result (kafka (attempts s))).
  - apply sends_stop with (j := 1%nat); [done | done | lia | done | done].
  - destruct (landed (kafka (attempts s)));
      destruct (shutdownBeforeRetry (kafka (attempts s)));
      try (destruct (attempt <? maxRetries);
           [destruct (shutdownWhileWaiting (kafka (attempts s))) |]);
      first
        [ apply sends_stop with (j := 1%nat);
          [done | done | lia | done
          | intros Hf; by specialize (Hlost Hf ltac:(done))]
        | apply sends_stop with (j := 0%nat);
          [done | simpl; by rewrite app_nil_r | lia | done | done]
        | eapply sends_step with (j := 1%nat); [ | | | | apply IH];
          [done | done | lia
          | intros Hf; by specialize (Hlost Hf ltac:(done))]
        | eapply sends_step with (j := 0%nat); [ | | | | apply IH];
          [done | simpl; by rewrite app_nil_r | lia | done] ].
  - destruct (landed (kafka (attempts s)));
      destruct (shutdownBeforeRetry (kafka (attempts s)));
      try (destruct (attempt <? maxRetries);
           [destruct (shutdownWhileWaiting (kafka (attempts s))) |]);
      first
        [ apply sends_stop with (j := 1%nat);
          [done | done | lia | done
          | intros Hf; by specialize (Hlost Hf ltac:(done))]
        | apply sends_stop with (j := 0%nat);
          [done | simpl; by rewrite app_nil_r | lia | done | done]
        | eapply sends_step with (j := 1%nat); [ | | | | apply IH];
          [done | done | lia
          | intros Hf; by specialize (Hlost Hf ltac:(done))]
        | eapply sends_step with (j := 0%nat); [ | | | | apply IH];
          [done | simpl; by rewrite app_nil_r | lia | done] ].
  - destruct (landed (kafka (attempts s)));
      first
        [ apply sends_stop with (j := 1%nat);
          [done | done | lia | done
          | intros Hf; by specialize (Hlost Hf ltac:(done))]
        | apply sends_stop with (j := 0%nat);
          [done | simpl; by rewrite app_nil_r | lia | done | done] ].
Qed.
End Sends.

(** A publish call never touches the seen map, and leaves on the topic
    copies of its one message: at most six, at least one when it reports
    no error. *)
Lemma publish_effect (story : Story) (source : string) (s : Scraper) :
  sends kafka story source s 6 (publish story source s).
Proof. apply retry_loop_sends. Qed.

(** What one call of [addAndPublishStory] does to the seen map and to
    the topic. *)
Lemma add_effect (story : Story) (source : string) (s : Scraper) :
  (unseen (ID story) s = false ∧ add story source s = s)
  ∨ (unseen (ID story) s = true
     ∧ seenStories (add story source s) = <[ID story := true]> (seenStories s)
     ∧ ∃ k, topic (add story source s)
            = topic s ++ replicate k (mkMessage source story)
            ∧ (k ≤ 6)%nat
            ∧ (failures_are_losses kafka → (k ≤ 1)%nat)).
Proof.
  unfold addAndPublishStory.
  destruct (unseen (ID story) s) eqn:Hu; [right | by left].
  split; [done |].
  match goal with
  | |- context [publishStoryToKafka _ _ _ ?s'] =>
      pose proof (publish_effect story source s')
        as (Hseen & k & Htopic & Hk & _ & Hf);
      assert (seenStories s' = <[ID story := true]> (seenStories s)
              ∧ topic s' = topic s) as [Hs' Ht']
        by (by destruct (negb (String.eqb (URL story) "")));
      destruct (publishStoryToKafka kafka story source s') as [[e|] s'']
  end; simpl in *; rewrite Hseen, Htopic, Hs', Ht'.
  - split; [done |]. exists k. split; [done |]. split; [done |].
    intros Hl. rewrite (Hf Hl). lia.
  - split; [done |]. exists k. split; [done |]. split; [done |].
    intros Hl. rewrite (Hf Hl). lia.
Qed.

Lemma unseen_false (id : Z) (s : Scraper) :
  unseen id s = false ↔ seenStories s !! id = Some true.
Proof.
  unfold unseen. destruct (seenStories s !! id) as [[]|]; simpl;
    split; congruence.
Qed.

Lemma add_topic_seen (story : Story) (source : string) (s : Scraper) :
  topic_seen s → topic_seen (add story source s).
Proof.
  intros Hseen.
  destruct (add_effect story source s)
    as [[_ ->]|(Hu & Hs & k & Ht & _)]; [done |].
  unfold topic_seen. rewrite Hs, Ht.
  intros m [Hm|Hm]%elem_of_app.
  - destruct (decide (ID story = ID (Value m))) as [->|Hne].
    + apply lookup_insert_eq.
    + rewrite lookup_insert_ne by done. by apply Hseen.
  - apply elem_of_replicate in Hm as [-> _]. apply lookup_insert_eq.
Qed.

Lemma unseen_messages_for (id : Z) (s : Scraper) :
  topic_seen s → unseen id s = true → messages_for id s = 0%nat.
Proof.
  intros Hseen Hu. unfold messages_for. unfold topic_seen in Hseen.
  induction (topic s) as [|m l IH]; simpl; [done |].
  destruct (Z.eqb_spec (ID (Value m)) id) as [<-|_].
  - assert (unseen (ID (Value m)) s = false) as Hs
      by (apply unseen_false, Hseen; left).
    congruence.
  - apply IH. intros m' Hm'. apply Hseen. by right.
Qed.

Lemma unseen_not_on_topic (story : Story) (s : Scraper) (m : Message) :
  topic_seen s → unseen (ID story) s = true → m ∈ topic s →
  ID (Value m) ≠ ID story.
Proof.
  intros Hseen Hu Hm Hid. apply Hseen in Hm. rewrite Hid in Hm.
  apply unseen_false in Hm. congruence.
Qed.

(** With unacknowledged writes lost, each id is on the topic once. *)
Lemma add_published_once (story : Story) (source : string) (s : Scraper) :
  failures_are_losses kafka →
  published_once s → published_once (add story source s).
Proof.
  intros Hl [Hnd Hseen].
  pose proof (add_topic_seen story source s Hseen) as Hseen'.
  split; [| exact Hseen'].
  destruct (add_effect story source s)
    as [[_ ->]|(Hu & Hs & k & Ht & _ & Hk)]; [done |].
  specialize (Hk Hl). unfold published_ids. rewrite Ht, map_app.
  apply NoDup_app. split; [done |]. split.
  - intros id Hid Hin.
    apply list_elem_of_fmap in Hid as (m & -> & Hm).
    apply list_elem_of_fmap in Hin as (m' & Hid & Hm').
    apply elem_of_replicate in Hm' as [-> _]. simpl in Hid.
    by apply (unseen_not_on_topic story s m).
  - destruct k as [|[|k]]; [constructor | apply NoDup_singleton | lia].
Qed.

(** In general the messages of an id are the copies of one call. *)
Lemma add_copies (story : Story) (source : string) (s : Scraper) :
  copies_of_one_call s → copies_of_one_call (add story source s).
Proof.
  intros (Hseen & Hcount & Hsame).
  pose proof (add_topic_seen story source s Hseen) as Hseen'.
  split; [exact Hseen' |].
  destruct (add_effect story source s)
    as [[_ ->]|(Hu & Hs & k & Ht & Hk & _)]; [done |].
  split.
  - intros id. unfold messages_for. rewrite Ht, filter_replicate_length.
    simpl. destruct (Z.eqb_spec (ID story) id) as [<-|_].
    + pose proof (unseen_messages_for (ID story) s Hseen Hu) as H0.
      unfold messages_for in H0. rewrite H0.
      change (Z.to_nat (maxRetries + 1)) with 6%nat. simpl. lia.
    + rewrite Nat.add_0_r. apply Hcount.
  - rewrite Ht. intros m m' [Hm|Hm]%elem_of_app [Hm'|Hm']%elem_of_app Hid.
    + by apply Hsame.
    + apply elem_of_replicate in Hm' as [-> _]. simpl in Hid.
      by destruct (unseen_not_on_topic story s m Hseen Hu Hm).
    + apply elem_of_replicate in Hm as [-> _]. simpl in Hid.
      by destruct (unseen_not_on_topic story s m' Hseen Hu Hm').
    + apply elem_of_replicate in Hm as [-> _].
      by apply elem_of_replicate in Hm' as [-> _].
Qed.

(** Once an id is marked seen, no call adds a message for it. *)
Lemma add_settled (id : Z) (story : Story) (source : string) (s : Scraper) :
  seenStories s !! id = Some true →
  seenStories (add story source s) !! id = Some true
  ∧ messages_for id (add story source s) = messages_for id s.
Proof.
  intros Hid.
  destruct (add_effect story source s)
    as [[_ ->]|(Hu & Hs & k & Ht & _)]; [done |].
  assert (ID story ≠ id) as Hne.
  { intros <-. apply unseen_false in Hid. congruence. }
  split; [rewrite Hs; by rewrite lookup_insert_ne |].
  unfold messages_for. rewrite Ht, filter_replicate_length. simpl.
  destruct (Z.eqb_spec (ID story) id); [done | lia].
Qed.

(** Whatever [addAndPublishStory] preserves, a poll and a whole run of
    polls preserve: they change the seen map and the topic only through
    it. *)
Section Preservation.
Variable P : Scraper → Prop.
Hypothesis add_preserves : ∀ story source s, P s → P (add story source s).

Lemma poll_items_preserves source items s :
  P s → P (poll_items kafka source items s).
Proof.
  revert s. induction items as [|item items IH]; intros s Hs; simpl; [done |].
  destruct (cancelled s); [done |].
  destruct item as [story|]; [| by apply IH].
  destruct (negb (String.eqb (Title story) "")); apply IH; auto.
Qed.

Lemma pollStories_preserves sources s :
  P s → P (pollStories kafka sources s).
Proof.
  revert s.
  induction sources as [|[source fetched] sources IH]; intros s Hs;
    simpl; [done |].
  destruct (cancelled s); [done |].
  destruct fetched as [items|]; [| by apply IH].
  by apply IH, poll_items_preserves.
Qed.

Lemma run_preserves ticks s : P s → P (run kafka ticks s).
Proof.
  revert s. induction ticks as [|tick ticks IH]; intros s Hs; simpl; [done |].
  by apply IH, pollStories_preserves.
Qed.
End Preservation.

Lemma calls_preserves (P : Scraper → Prop) :
  (∀ story source s, P s → P (add story source s)) →
  ∀ cs s, P s → P (calls kafka cs s).
Proof.
  intros Hadd cs. induction cs as [|[story source] cs IH]; intros s Hs;
    simpl; [done |].
  by apply IH, Hadd.
Qed.

Lemma NewScraper_published_once : published_once NewScraper.
Proof. split; [constructor | intros m Hm; by apply elem_of_nil in Hm]. Qed.

Lemma NewScraper_copies : copies_of_one_call NewScraper.
Proof.
  split; [intros m Hm; by apply elem_of_nil in Hm |].
  split; [intros id; unfold messages_for; simpl; apply Nat.le_0_l |].
  intros m m' Hm. by apply elem_of_nil in Hm.
Qed.

Lemma published_once_messages_for (id : Z) (s : Scraper) :
  published_once s → (messages_for id s ≤ 1)%nat.
Proof. intros [Hnd _]. by apply messages_for_NoDup. Qed.

Lemma add_marks_seen (story : Story) (source : string) (s : Scraper) :
  seenStories (add story source s) !! ID story = Some true.
Proof.
  destruct (add_effect story source s) as [[Hu ->]|(_ & -> & _)].
  - by apply unseen_false.
  - apply lookup_insert_eq.
Qed.

Lemma run_settled (id : Z) (ticks : list (list (string * option (list (option Story)))))
      (s : Scraper) :
  seenStories s !! id = Some true →
  messages_for id (run kafka ticks s) = messages_for id s.
Proof.
  intros Hid.
  apply (run_preserves
           (fun s' => seenStories s' !! id = Some true
                      ∧ messages_for id s' = messages_for id s));
    [| done].
  intros story source s' [Hs' Hn].
  destruct (add_settled id story source s' Hs') as [? Hn'].
  split; [done | congruence].
Qed.

End ScraperProperties.


Lemma failures_are_losses_broker_down : Scraper.failures_are_losses broker_down.
Proof. intros n _. reflexivity. Qed.


(* ===================================================================== *)
(** * Part III: further properties of the same code                       *)
(* ===================================================================== *)

(** ** The filter engine, from the configuration to the verdict *)

Lemma list_to_set_empty_iff (l : list string) :
  (list_to_set l : gset string) = ∅ ↔ l = [].
Proof.
  destruct l as [|x l]; simpl; [done |].
  split; [| done]. intros He.
  assert (x ∈ (∅ : gset string)) as Hx
    by (rewrite <- He; apply elem_of_union_l, elem_of_singleton; done).
  by apply not_elem_of_empty in Hx.
Qed.

Lemma is_substring_empty (s : string) : is_substring "" s.
Proof. by exists "", s. Qed.

Section FilterExtras.
Variable unicodeLower : string → string.
Local Abbreviation ToLower := (Strings.ToLower unicodeLower).
Local Abbreviation accepts := (Matches unicodeLower).

(** X1. The verdict of the filter built from a configuration, in terms of
    the configuration alone: a story is accepted exactly when nothing is
    configured (no types, no keywords, no positive minimum score), or its
    type is listed (or no type is), its score reaches the minimum and its
    lower-cased title contains a lower-cased keyword (or there is none). *)
Theorem Matches_of_config (cfg : FilterConfig) (story : Story) :
  accepts (NewStoryFilter cfg) story = true
  ↔ (StoryTypes cfg = [] ∧ Keywords cfg = [] ∧ MinimumScore cfg <= 0)
    ∨ ((StoryTypes cfg = [] ∨ Type_ story ∈ StoryTypes cfg)
       ∧ MinimumScore cfg <= Score story
       ∧ (Keywords cfg = []
          ∨ ∃ k, k ∈ Keywords cfg
                 ∧ is_substring (ToLower k) (ToLower (Title story)))).
Proof.
  assert (type_constraint (NewStoryFilter cfg) story
          ↔ StoryTypes cfg = [] ∨ Type_ story ∈ StoryTypes cfg) as Hty.
  { unfold type_constraint. rewrite NewStoryFilter_allowed_types.
    by rewrite list_to_set_empty_iff, elem_of_list_to_set. }
  destruct (enabled (NewStoryFilter cfg)) eqn:Hen.
  - rewrite (Matches_enabled unicodeLower _ _ (NewStoryFilter_types_wf cfg) Hen).
    rewrite Hty. unfold score_constraint, keyword_constraint, title_has_keyword.
    simpl. split; [by right |]. intros [(Ht & Hk & Hs)|H]; [| done].
    simpl in Hen. rewrite Ht, Hk in Hen. simpl in Hen.
    apply Z.ltb_lt in Hen. lia.
  - assert (accepts (NewStoryFilter cfg) story = true) as ->
      by (unfold Matches; by rewrite Hen).
    split; [intros _ | done]. left.
    simpl in Hen. apply orb_false_iff in Hen as [Hen Hs].
    apply orb_false_iff in Hen as [Ht Hk].
    apply Z.ltb_ge in Ht, Hk, Hs.
    repeat split; [| | done].
    + destruct (StoryTypes cfg); [done | simpl in Ht; lia].
    + destruct (Keywords cfg); [done | simpl in Hk; lia].
Qed.

(** X2. A higher score never turns an accepted story into a rejected one:
    if the filter accepts a story, it accepts every story with the same
    title and type and a score at least as high. *)
Theorem Matches_score_monotone (f : StoryFilter) (story story' : Story) :
  accepts f story = true →
  Title story' = Title story → Type_ story' = Type_ story →
  Score story <= Score story' →
  accepts f story' = true.
Proof.
  unfold Matches. intros Hm Ht Hty Hs. rewrite Ht, Hty.
  destruct (negb (enabled f)); [done |].
  destruct ((0 <? Z.of_nat (size (storyTypes f)))
            && negb (index_bool (storyTypes f) (Type_ story))); [done |].
  destruct (Z.ltb_spec (Score story) (minimumScore f)); [done |].
  destruct (Z.ltb_spec (Score story') (minimumScore f)); [lia | done].
Qed.

(** X3. A keyword whose lower-cased form is empty, such as the empty
    keyword, matches every title: an enabled filter that holds one decides
    by type and score alone. *)
Theorem Matches_empty_keyword (f : StoryFilter) (story : Story) (k : string) :
  types_wf f → enabled f = true →
  k ∈ keywords f → ToLower k = "" →
  (accepts f story = true
   ↔ type_constraint f story ∧ score_constraint f story).
Proof.
  intros Hwf Hen Hk Hempty.
  rewrite (Matches_enabled unicodeLower f story Hwf Hen).
  split; [intros (? & ? & _); done |].
  intros [Hty Hsc]. repeat split; [done | done |].
  right. exists k. split; [done |]. rewrite Hempty. apply is_substring_empty.
Qed.
End FilterExtras.

Lemma Matches_score_monotone_witness :
  Matches Strings.lower_bytes (NewStoryFilter rust_cfg) rust_story = true
  ∧ Score rust_story <= Score rust_story_rescored
  ∧ Matches Strings.lower_bytes (NewStoryFilter rust_cfg) rust_story_rescored
    = true.
Proof.
  split; [reflexivity | split; [simpl; lia |]].
  apply (Matches_score_monotone Strings.lower_bytes (NewStoryFilter rust_cfg)
           rust_story rust_story_rescored);
    [reflexivity | reflexivity | reflexivity | simpl; lia].
Defined.

Lemma Matches_empty_keyword_witness :
  "" ∈ keywords empty_keyword_filter
  ∧ (Matches Strings.lower_bytes empty_keyword_filter low_score_story = true
     ↔ type_constraint empty_keyword_filter low_score_story
       ∧ score_constraint empty_keyword_filter low_score_story).
Proof.
  assert ("" ∈ keywords empty_keyword_filter) as Hin
    by (right; left).
  split; [exact Hin |].
  apply (Matches_empty_keyword Strings.lower_bytes empty_keyword_filter
           low_score_story "");
    [apply NewStoryFilter_types_wf | reflexivity | exact Hin | reflexivity].
Defined.

(** ** The item index *)

Lemma elem_of_GetAllStories (stories : gmap Z Story) (story : Story) :
  story ∈ GetAllStories stories ↔ ∃ k, stories !! k = Some story.
Proof.
  unfold GetAllStories. rewrite list_elem_of_fmap. split.
  - intros ([k x] & -> & Hin). exists k. by apply elem_of_map_to_list.
  - intros [k Hk]. exists (k, story). split; [done |].
    by apply elem_of_map_to_list.
Qed.

Lemma keyed_ids (stories : gmap Z Story) :
  keyed stories → map ID (GetAllStories stories) = (map_to_list stories).*1.
Proof.
  intros Hk. unfold GetAllStories.
  rewrite <- list_fmap_compose. apply list_fmap_ext.
  intros i [k story] Hin. simpl.
  apply Hk. apply elem_of_map_to_list. by apply list_elem_of_lookup_2 in Hin.
Qed.

Lemma keyed_AddStory (story : Story) (stories : gmap Z Story) :
  keyed stories → keyed (AddStory story stories).
Proof.
  intros Hk k story' Hl. unfold AddStory in Hl.
  destruct (decide (ID story = k)) as [<-|Hne].
  - rewrite lookup_insert_eq in Hl. congruence.
  - rewrite lookup_insert_ne in Hl by done. by apply Hk.
Qed.

(** X4. [GetAllStories] returns exactly the stored stories, one entry
    per key; when the index is keyed by story id, as [AddStory] keeps it,
    no two entries share an id. *)
Theorem GetAllStories_spec (stories : gmap Z Story) :
  (∀ story, story ∈ GetAllStories stories ↔ ∃ k, stories !! k = Some story)
  ∧ length (GetAllStories stories) = size stories
  ∧ (keyed stories → NoDup (map ID (GetAllStories stories))).
Proof.
  split; [apply elem_of_GetAllStories | split].
  - unfold GetAllStories. by rewrite length_fmap, length_map_to_list.
  - intros Hk. rewrite keyed_ids by done. apply NoDup_fst_map_to_list.
Qed.

(** X5. [AddStory] is an upsert by id: the story is then stored under its
    id and is the only stored story with that id, the other ids keep their
    stories, a second story with the same id replaces the first, and the
    index grows by one exactly when the id was new. *)
Theorem AddStory_upsert (story : Story) (stories : gmap Z Story) :
  keyed stories →
  AddStory story stories !! ID story = Some story
  ∧ (∀ k, k ≠ ID story → AddStory story stories !! k = stories !! k)
  ∧ (∀ other, other ∈ GetAllStories (AddStory story stories) →
              ID other = ID story → other = story)
  ∧ (∀ story', ID story' = ID story →
               AddStory story' (AddStory story stories)
               = AddStory story' stories)
  ∧ length (GetAllStories (AddStory story stories))
    = match stories !! ID story with
      | Some _ => size stories
      | None => S (size stories)
      end
  ∧ keyed (AddStory story stories).
Proof.
  intros Hk. pose proof (keyed_AddStory story stories Hk) as Hk'.
  split; [apply lookup_insert_eq |].
  split; [intros k Hne; by apply lookup_insert_ne |].
  split; [| split; [| split; [| done]]].
  - intros other [k Hl]%elem_of_GetAllStories Hid.
    assert (k = ID story) as -> by (rewrite <- Hid; symmetry; by apply Hk').
    unfold AddStory in Hl. rewrite lookup_insert_eq in Hl. congruence.
  - intros story' Hid. unfold AddStory. rewrite Hid. apply insert_insert_eq.
  - unfold GetAllStories, AddStory.
    rewrite length_fmap, length_map_to_list, map_size_insert.
    by destruct (stories !! ID story).
Qed.

Lemma keyed_empty : keyed ∅.
Proof. intros k story Hl. by rewrite lookup_empty in Hl. Qed.

Lemma AddStory_upsert_witness :
  keyed three_items
  ∧ AddStory rust_story three_items !! ID rust_story = Some rust_story
  ∧ length (GetAllStories (AddStory rust_story three_items))
    = size three_items.
Proof.
  assert (keyed three_items) as Hk
    by (repeat apply keyed_AddStory; apply keyed_empty).
  destruct (AddStory_upsert rust_story three_items Hk)
    as (Hl & _ & _ & _ & Hlen & _).
  split; [exact Hk | split; [exact Hl | exact Hlen]].
Defined.

Lemma GetAllStories_spec_witness :
  keyed three_items ∧ NoDup (map ID (GetAllStories three_items)).
Proof.
  assert (keyed three_items) as Hk
    by (repeat apply keyed_AddStory; apply keyed_empty).
  split; [exact Hk |].
  destruct (GetAllStories_spec three_items) as (_ & _ & Hnd). by apply Hnd.
Defined.

(** ** The consumer loop: what the index holds *)

Lemma lookup_fold_AddStory (l : list Story) (stories : gmap Z Story) (id : Z) :
  fold_left (fun st story => AddStory story st) l stories !! id
  = match last_with_id id l with
    | Some story => Some story
    | None => stories !! id
    end.
Proof.
  unfold last_with_id. revert stories.
  induction l as [|x l IH]; intros stories; simpl; [done |].
  rewrite IH. destruct (Z.eqb_spec (ID x) id) as [<-|Hne].
  - rewrite last_cons.
    destruct (last (List.filter (fun story => ID story =? ID x) l)); [done |].
    apply lookup_insert_eq.
  - destruct (last (List.filter (fun story => ID story =? id) l)); [done |].
    by apply lookup_insert_ne.
Qed.

Section ConsumerExtras.
Variable unicodeLower : string → string.
Variable Unmarshal : string → option Story.
Local Abbreviation consume := (consumeMessages unicodeLower Unmarshal).
Local Abbreviation accepts := (Matches unicodeLower).
Local Abbreviation taken := (accepted unicodeLower Unmarshal).

Lemma consume_store (fetches : list Fetch) (s : Server) :
  store (consume fetches s)
  = fold_left (fun st story => AddStory story st)
      (taken (filter s) fetches) (store s).
Proof.
  revert s. induction fetches as [|x fetches IH]; intros s; [done |].
  destruct x as [| | |value]; simpl; [done | done | by rewrite IH |].
  destruct (Unmarshal value) as [story|]; [| by rewrite IH].
  destruct (accepts (filter s) story); simpl; by rewrite IH.
Qed.

Lemma accepted_accepts (f : StoryFilter) (fetches : list Fetch) (story : Story) :
  story ∈ taken f fetches → accepts f story = true.
Proof.
  induction fetches as [|x fetches IH]; simpl; [by intros ?%elem_of_nil |].
  destruct x as [| | |value]; try (by intros ?%elem_of_nil); [done |].
  destruct (Unmarshal value) as [story'|]; [| done].
  destruct (accepts f story') eqn:Hm; [| done].
  intros [->|Hin]%elem_of_cons; [done | by apply IH].
Qed.

Lemma last_with_id_Some (id : Z) (l : list Story) (story : Story) :
  last_with_id id l = Some story → story ∈ l ∧ ID story = id.
Proof.
  unfold last_with_id. intros Hl.
  assert (story ∈ List.filter (fun story => ID story =? id) l) as Hin.
  { apply last_Some in Hl as [l' ->]. apply elem_of_app. right. left. }
  apply list_elem_of_In, filter_In in Hin as [Hin Hid].
  split; [by apply list_elem_of_In | by apply Z.eqb_eq].
Qed.

(** X6. Last write wins, message by message: after the loop has run over
    any fetches, the index holds under each id the last story with that id
    that decoded and passed the filter before the loop shut down, and what
    it held before if there was none. *)
Theorem consumeMessages_last_write_wins
        (fetches : list Fetch) (s : Server) (id : Z) :
  store (consume fetches s) !! id
  = match last_with_id id (taken (filter s) fetches) with
    | Some story => Some story
    | None => store s !! id
    end.
Proof. rewrite consume_store. apply lookup_fold_AddStory. Qed.

Lemma consume_NewServer_lookup (cfg : FilterConfig) (fetches : list Fetch)
      (k : Z) (story : Story) :
  store (consume fetches (NewServer cfg)) !! k = Some story →
  ID story = k ∧ accepts (NewStoryFilter cfg) story = true.
Proof.
  rewrite consume_store, lookup_fold_AddStory. simpl.
  destruct (last_with_id k _) as [story'|] eqn:Hl;
    [| by rewrite lookup_empty].
  intros [= ->]. apply last_with_id_Some in Hl as [Hin Hid].
  split; [done | by apply accepted_accepts in Hin].
Qed.

(** X7. The index of a server started by [NewServer] never holds a story
    its filter rejects, and holds every story under that story's id. *)
Theorem consumeMessages_index_sound (cfg : FilterConfig) (fetches : list Fetch) :
  keyed (store (consume fetches (NewServer cfg)))
  ∧ ∀ k story,
      store (consume fetches (NewServer cfg)) !! k = Some story →
      accepts (NewStoryFilter cfg) story = true.
Proof.
  split; intros k story Hl;
    by destruct (consume_NewServer_lookup cfg fetches k story Hl).
Qed.

(** X8. Nothing is processed after shutdown: once a turn of the loop sees
    the context done, or a fetch cancelled, the later fetches change
    neither the index nor the output. *)
Theorem consumeMessages_stops (pre post : list Fetch) (stop : Fetch) (s : Server) :
  continues stop = false →
  consume (pre ++ stop :: post) s = consume (pre ++ [stop]) s.
Proof.
  intros Hstop. revert s. induction pre as [|x pre IH]; intros s; simpl.
  - by destruct stop.
  - destruct x as [| | |value]; [done | done | by apply IH |].
    destruct (Unmarshal value) as [story|]; [| by apply IH].
    destruct (accepts (filter s) story); simpl; by apply IH.
Qed.

Lemma consume_dom_mono (fetches : list Fetch) (s : Server) :
  dom (store s) ⊆ dom (store (consume fetches s)).
Proof.
  revert s. induction fetches as [|x fetches IH]; intros s; [done |].
  destruct x as [| | |value]; simpl; [done | done | apply (IH (printf _ s)) |].
  destruct (Unmarshal value) as [story|]; [| apply (IH (printf _ s))].
  destruct (accepts (filter s) story); simpl; [| apply (IH (printf _ s))].
  etrans; [| apply IH]. simpl. apply dom_insert_subseteq.
Qed.

(** X9. The loop never removes an id from the index, so the index never
    shrinks, and it never changes the filter. *)
Theorem consumeMessages_never_deletes (fetches : list Fetch) (s : Server) :
  dom (store s) ⊆ dom (store (consume fetches s))
  ∧ (size (store s) ≤ size (store (consume fetches s)))%nat
  ∧ filter (consume fetches s) = filter s.
Proof.
  split; [apply consume_dom_mono | split].
  - rewrite <- !size_dom. apply subseteq_size, consume_dom_mono.
  - apply consume_filter.
Qed.

(** X10. Passthrough: while the filter is not enabled, every message that
    decodes is stored; after fetches that do not shut the loop down, the
    id of each decoded story is in the index. *)
Theorem consumeMessages_passthrough
        (fetches : list Fetch) (s : Server) (value : string) (story : Story) :
  enabled (filter s) = false →
  Forall (fun x => continues x = true) fetches →
  FetchMessage value ∈ fetches →
  Unmarshal value = Some story →
  ID story ∈ dom (store (consume fetches s)).
Proof.
  intros Hoff Hgo Hin Hd. revert s Hoff.
  induction Hgo as [|x fetches Hx Hgo IH]; intros s Hoff;
    [by apply elem_of_nil in Hin |].
  assert (∀ story', accepts (filter s) story' = true) as Hall
    by (intros story'; unfold Matches; by rewrite Hoff).
  apply elem_of_cons in Hin as [<-|Hin].
  - simpl. rewrite Hd, Hall. simpl.
    apply (consume_dom_mono fetches). simpl.
    apply elem_of_dom. exists story. apply lookup_insert_eq.
  - destruct x as [| | |value']; simpl; [done | done | by apply IH |].
    destruct (Unmarshal value') as [story'|]; [| by apply IH].
    rewrite Hall. simpl. by apply IH.
Qed.
End ConsumerExtras.

Lemma consumeMessages_stops_witness :
  continues CtxDone = false
  ∧ consumeMessages Strings.lower_bytes rescored_table
      stream_past_shutdown rust_server
    = consumeMessages Strings.lower_bytes rescored_table
        [FetchMessage "rust-story"; CtxDone] rust_server.
Proof.
  split; [reflexivity |].
  apply (consumeMessages_stops Strings.lower_bytes rescored_table
           [FetchMessage "rust-story"] [FetchMessage "rust-story-2"] CtxDone
           rust_server).
  reflexivity.
Defined.

Lemma consumeMessages_passthrough_witness :
  enabled (filter passthrough_server) = false
  ∧ Forall (fun x => continues x = true) bad_then_good
  ∧ FetchMessage "low-score" ∈ bad_then_good
  ∧ decode_table "low-score" = Some low_score_story
  ∧ ID low_score_story
    ∈ dom (store (consumeMessages Strings.lower_bytes decode_table
                    bad_then_good passthrough_server)).
Proof.
  assert (Forall (fun x => continues x = true) bad_then_good) as Hgo
    by (repeat constructor).
  assert (FetchMessage "low-score" ∈ bad_then_good) as Hin
    by (do 2 right; left).
  split; [reflexivity | split; [exact Hgo | split; [exact Hin |]]].
  split; [reflexivity |].
  apply (consumeMessages_passthrough Strings.lower_bytes decode_table
           bad_then_good passthrough_server "low-score" low_score_story);
    [reflexivity | exact Hgo | exact Hin | reflexivity].
Defined.

(** ** The query layer: determinism, time window, empty ranges *)

Lemma sortStories_nil (sortBy : string) : sortStories sortBy [] = [].
Proof.
  unfold sortStories.
  destruct (String.eqb sortBy "oldest"); [done |].
  by destruct (String.eqb sortBy "popularity").
Qed.

Lemma filter_none {A : Type} (f : A → bool) (l : list A) :
  (∀ x, x ∈ l → f x = false) → List.filter f l = [].
Proof.
  induction l as [|x l IH]; intros Hf; simpl; [done |].
  rewrite (Hf x) by left. apply IH. intros y Hy. apply Hf. by right.
Qed.

Lemma NoDup_ids_filter (f : Story → bool) (l : list Story) :
  NoDup (map ID l) → NoDup (map ID (List.filter f l)).
Proof.
  induction l as [|x l IH]; simpl; [done |].
  intros [Hx Hl]%NoDup_cons. destruct (f x); simpl; [| by apply IH].
  apply NoDup_cons. split; [| by apply IH].
  intros (y & Hy & Hin)%list_elem_of_fmap. apply Hx.
  apply list_elem_of_fmap. exists y. split; [done |].
  apply list_elem_of_In, filter_In in Hin as [Hin _].
  by apply list_elem_of_In.
Qed.

(** The order a value of the [sort] parameter asks for, and the key on
    which two stories it ranks both ways agree. *)
Lemma sortStories_order (sortBy : string) :
  ∃ R : relation Story,
    (∀ l, StronglySorted R (sortStories sortBy l))
    ∧ ((sortBy ≠ "popularity"
        ∧ ∀ x y, R x y → R y x → Time_ x = Time_ y)
       ∨ (sortBy = "popularity"
          ∧ ∀ x y, R x y → R y x → Score x = Score y)).
Proof.
  unfold sortStories.
  destruct (String.eqb_spec sortBy "oldest") as [->|Ho].
  { exists time_ascending. split; [apply sort_oldest_sorted |].
    left. split; [done |]. unfold time_ascending. intros x y ??. lia. }
  destruct (String.eqb_spec sortBy "popularity") as [->|Hp].
  { exists score_descending. split; [apply sort_popularity_sorted |].
    right. split; [done |]. unfold score_descending. intros x y ??. lia. }
  exists time_descending. split; [apply sort_latest_sorted |].
  left. split; [done |]. unfold time_descending. intros x y ??. lia.
Qed.

Section QueryExtras.
Variable Atoi : string → option Z.
Variable ParseRFC3339 : string → option Z.
Local Abbreviation bounds := (parseQuery Atoi ParseRFC3339).
Local Abbreviation reply := (respond Atoi ParseRFC3339).

Lemma reply_body_elem (stories : list Story) (r : Query) (story : Story) :
  story ∈ body (reply stories r) → story ∈ stories.
Proof.
  rewrite (respond_body_Permutation Atoi ParseRFC3339 stories r).
  intros [Hin _]%list_elem_of_In%filter_In. by apply list_elem_of_In.
Qed.

(** X11. The order in which the index is enumerated does not show in the
    response: two enumerations give the same stories, and the very same
    response when the stories have pairwise distinct timestamps (for
    [oldest], [latest] and the default) or pairwise distinct scores (for
    [popularity]). *)
Theorem respond_deterministic (stories stories' : list Story) (r : Query) :
  stories ≡ₚ stories' →
  body (reply stories r) ≡ₚ body (reply stories' r)
  ∧ (q_sort r ≠ "popularity" →
     (∀ x y, x ∈ stories → y ∈ stories → Time_ x = Time_ y → x = y) →
     reply stories r = reply stories' r)
  ∧ (q_sort r = "popularity" →
     (∀ x y, x ∈ stories → y ∈ stories → Score x = Score y → x = y) →
     reply stories r = reply stories' r).
Proof.
  intros Hperm.
  assert (body (reply stories r) ≡ₚ body (reply stories' r)) as Hbody.
  { rewrite !(respond_body_Permutation Atoi ParseRFC3339).
    by apply filter_Permutation_bool. }
  assert (∀ R : relation Story,
            (∀ l, StronglySorted R (sortStories (q_sort r) l)) →
            (∀ x y, x ∈ stories → y ∈ stories → R x y → R y x → x = y) →
            reply stories r = reply stories' r) as Hsame.
  { intros R Hsorted Hanti. unfold respond. f_equal.
    apply (StronglySorted_unique_strong R);
      [| apply Hsorted | apply Hsorted | exact Hbody].
    intros x y Hx Hy. apply Hanti.
    - by apply reply_body_elem in Hx.
    - apply reply_body_elem in Hy. by rewrite Hperm. }
  split; [exact Hbody |].
  destruct (sortStories_order (q_sort r)) as (R & Hsorted & [[Hs Hk]|[Hs Hk]]).
  - split; [| done]. intros _ Hdistinct. apply (Hsame R Hsorted).
    intros x y Hx Hy Hxy Hyx. apply Hdistinct; [done | done | by apply Hk].
  - split; [done |]. intros _ Hdistinct. apply (Hsame R Hsorted).
    intros x y Hx Hy Hxy Hyx. apply Hdistinct; [done | done | by apply Hk].
Qed.

(** X12. The time window is inclusive at both ends: with a [since] and an
    [until] that parse to positive Unix times, a stored story within the
    score bounds is in the response exactly when its time lies between the
    two, the ends included. *)
Theorem handleGetStories_time_window
        (stories : list Story) (r : Query) (story : Story) (t u : Z) :
  q_since r ≠ "" → ParseRFC3339 (q_since r) = Some t → 0 < t →
  q_until r ≠ "" → ParseRFC3339 (q_until r) = Some u → 0 < u →
  (story ∈ body (reply stories r)
   ↔ story ∈ stories
     ∧ minScore (bounds r) <= Score story <= maxScore (bounds r)
     ∧ t <= Time_ story <= u).
Proof.
  intros Hs Ht Htpos Hu Hup Hupos.
  assert (sinceTime (bounds r) = t) as Hsince.
  { simpl. rewrite Ht. by destruct (String.eqb_spec (q_since r) ""). }
  assert (untilTime (bounds r) = u) as Huntil.
  { simpl. rewrite Hup. by destruct (String.eqb_spec (q_until r) ""). }
  rewrite (elem_of_reply Atoi ParseRFC3339), kept_spec.
  unfold before_since, after_until. rewrite Hsince, Huntil.
  destruct (Z.ltb_spec 0 t); [| lia]. destruct (Z.ltb_spec 0 u); [| lia].
  simpl. rewrite !Z.ltb_ge. intuition lia.
Qed.

(** X13. A range that is empty gives an empty response: a lower score
    bound above the upper one, or a positive [until] before [since]. *)
Theorem handleGetStories_empty_range (stories : list Story) (r : Query) :
  maxScore (bounds r) < minScore (bounds r)
  ∨ 0 < untilTime (bounds r) < sinceTime (bounds r) →
  body (reply stories r) = [].
Proof.
  intros Hempty. unfold respond. simpl.
  rewrite filter_none; [apply sortStories_nil |].
  intros story _. unfold kept, score_out, before_since, after_until.
  destruct Hempty as [Hs|Ht].
  - destruct (Z.ltb_spec (Score story) (minScore (bounds r)));
      destruct (Z.ltb_spec (maxScore (bounds r)) (Score story)); simpl;
      try done; lia.
  - destruct ((Score story <? minScore (bounds r))
              || (maxScore (bounds r) <? Score story)); [done |].
    destruct (Z.ltb_spec 0 (sinceTime (bounds r))); [| lia].
    destruct (Z.ltb_spec 0 (untilTime (bounds r))); [| lia].
    destruct (Z.ltb_spec (Time_ story) (sinceTime (bounds r)));
      destruct (Z.ltb_spec (untilTime (bounds r)) (Time_ story)); simpl;
      try done; lia.
Qed.
End QueryExtras.

Lemma three_items_enumeration :
  GetAllStories three_items = [item_200; item_300; item_100].
Proof. reflexivity. Qed.

Lemma respond_deterministic_witness :
  GetAllStories three_items ≡ₚ rev (GetAllStories three_items)
  ∧ q_sort no_params ≠ "popularity"
  ∧ (∀ x y, x ∈ GetAllStories three_items → y ∈ GetAllStories three_items →
            Time_ x = Time_ y → x = y)
  ∧ respond Atoi_decimal rfc3339_table (GetAllStories three_items) no_params
    = respond Atoi_decimal rfc3339_table (rev (GetAllStories three_items))
        no_params.
Proof.
  assert (∀ x y, x ∈ GetAllStories three_items →
                 y ∈ GetAllStories three_items →
                 Time_ x = Time_ y → x = y) as Hdistinct.
  { rewrite three_items_enumeration. intros x y Hx Hy Hxy.
    one_of_three Hx; one_of_three Hy; (reflexivity || discriminate Hxy). }
  destruct (respond_deterministic Atoi_decimal rfc3339_table
              (GetAllStories three_items) (rev (GetAllStories three_items))
              no_params (Permutation_rev _)) as (_ & Htime & _).
  split; [apply Permutation_rev | split; [discriminate |]].
  split; [exact Hdistinct |].
  apply Htime; [discriminate | exact Hdistinct].
Defined.

Lemma handleGetStories_time_window_witness :
  q_since window_query ≠ ""
  ∧ rfc3339_table (q_since window_query) = Some 200
  ∧ q_until window_query ≠ ""
  ∧ rfc3339_table (q_until window_query) = Some 200
  ∧ (item_200
     ∈ body (respond Atoi_decimal rfc3339_table
               [item_100; item_200; item_300] window_query)
     ↔ item_200 ∈ [item_100; item_200; item_300]
       ∧ minScore (parseQuery Atoi_decimal rfc3339_table window_query)
         <= Score item_200
         <= maxScore (parseQuery Atoi_decimal rfc3339_table window_query)
       ∧ 200 <= Time_ item_200 <= 200).
Proof.
  split; [discriminate | split; [reflexivity |]].
  split; [discriminate | split; [reflexivity |]].
  apply (handleGetStories_time_window Atoi_decimal rfc3339_table
           [item_100; item_200; item_300] window_query item_200 200 200);
    (discriminate || reflexivity || lia).
Defined.

Lemma handleGetStories_empty_range_witness :
  maxScore (parseQuery Atoi_decimal rfc3339_table inverted_query)
  < minScore (parseQuery Atoi_decimal rfc3339_table inverted_query)
  ∧ body (respond Atoi_decimal rfc3339_table scored_items inverted_query) = [].
Proof.
  assert (maxScore (parseQuery Atoi_decimal rfc3339_table inverted_query)
          < minScore (parseQuery Atoi_decimal rfc3339_table inverted_query))
    as Hlt by (vm_compute; reflexivity).
  split; [exact Hlt |].
  apply (handleGetStories_empty_range Atoi_decimal rfc3339_table
           scored_items inverted_query).
  left. exact Hlt.
Defined.

(** ** From the stream to the response *)

Section EndToEnd.
Variable unicodeLower : string → string.
Variable Unmarshal : string → option Story.
Variable Atoi : string → option Z.
Variable ParseRFC3339 : string → option Z.
Local Abbreviation consume := (consumeMessages unicodeLower Unmarshal).
Local Abbreviation accepts := (Matches unicodeLower).
Local Abbreviation bounds := (parseQuery Atoi ParseRFC3339).
Local Abbreviation reply := (respond Atoi ParseRFC3339).

(** X14. What a server answers: for a server started by [NewServer] that
    has consumed any fetches, and any enumeration of its index, the
    response lists no id twice, and every story in it is the one the index
    holds under its id, passes the server's filter and passes the tests of
    the query. *)
Theorem served_stories_sound
        (cfg : FilterConfig) (fetches : list Fetch)
        (stories : list Story) (r : Query) :
  enumerates stories (store (consume fetches (NewServer cfg))) →
  NoDup (map ID (body (reply stories r)))
  ∧ ∀ story, story ∈ body (reply stories r) →
      store (consume fetches (NewServer cfg)) !! ID story = Some story
      ∧ accepts (NewStoryFilter cfg) story = true
      ∧ kept (bounds r) story = true.
Proof.
  intros Henum. unfold enumerates in Henum. split.
  - rewrite (respond_body_Permutation Atoi ParseRFC3339 stories r).
    apply NoDup_ids_filter. rewrite Henum, keyed_ids.
    + apply NoDup_fst_map_to_list.
    + intros k story Hl.
      by destruct (consume_NewServer_lookup unicodeLower Unmarshal
                     cfg fetches k story Hl).
  - intros story [Hin Hkept]%(elem_of_reply Atoi ParseRFC3339).
    rewrite Henum in Hin. apply elem_of_GetAllStories in Hin as [k Hl].
    destruct (consume_NewServer_lookup unicodeLower Unmarshal
                cfg fetches k story Hl) as [-> Hm].
    done.
Qed.
End EndToEnd.

Lemma served_stories_sound_witness :
  enumerates
    (GetAllStories
       (store (consumeMessages Strings.lower_bytes rescored_table
                 rescored_stream (NewServer rust_cfg))))
    (store (consumeMessages Strings.lower_bytes rescored_table
              rescored_stream (NewServer rust_cfg)))
  ∧ body (respond Atoi_decimal rfc3339_table
            (GetAllStories
               (store (consumeMessages Strings.lower_bytes rescored_table
                         rescored_stream (NewServer rust_cfg))))
            no_params)
    = [rust_story_rescored]
  ∧ NoDup (map ID (body (respond Atoi_decimal rfc3339_table
            (GetAllStories
               (store (consumeMessages Strings.lower_bytes rescored_table
                         rescored_stream (NewServer rust_cfg))))
            no_params))).
Proof.
  assert (enumerates
    (GetAllStories
       (store (consumeMessages Strings.lower_bytes rescored_table
                 rescored_stream (NewServer rust_cfg))))
    (store (consumeMessages Strings.lower_bytes rescored_table
              rescored_stream (NewServer rust_cfg)))) as Henum
    by (unfold enumerates; reflexivity).
  split; [exact Henum | split; [reflexivity |]].
  apply (served_stories_sound Strings.lower_bytes rescored_table
           Atoi_decimal rfc3339_table rust_cfg rescored_stream _ no_params
           Henum).
Defined.

(** ** Loading the configuration *)

Section LoaderProperties.
Import Loader.
Variable ReadFile : string → option string.
Variable yaml_Unmarshal : string → option Config.
Variable Dir : string → string.
Variable Separator : ascii.
Local Abbreviation load := (loadConfig ReadFile yaml_Unmarshal Dir Separator).
Local Abbreviation dir_of := (configDir Dir Separator).

Lemma is_absolute_app (d p : string) :
  is_absolute d = true → is_absolute (d +:+ p) = true.
Proof. by destruct d. Qed.

Lemma resolve_spec (path p : string) :
  (p = "" → resolve (dir_of path) p = "")
  ∧ (is_absolute p = true → resolve (dir_of path) p = p)
  ∧ (is_relative p = true → resolve (dir_of path) p = dir_of path +:+ p)
  ∧ (Dir path = "." → resolve (dir_of path) p = p)
  ∧ (is_absolute (Dir path) = true → p ≠ "" →
     is_absolute (resolve (dir_of path) p) = true).
Proof.
  unfold resolve. split; [by intros -> |].
  split; [destruct p as [|c p]; [done |]; simpl; by intros -> |].
  split; [by intros -> |].
  split.
  - intros Hd. unfold configDir. rewrite Hd. simpl. by destruct (is_relative p).
  - intros Hd Hp. destruct p as [|c p]; [done |]. simpl.
    destruct (Ascii.eqb c "/") eqn:Hc; simpl; [done |].
    unfold configDir.
    destruct (String.eqb_spec (Dir path) ".") as [He|_];
      [by rewrite He in Hd |].
    destruct (String.eqb_spec (Dir path) "") as [He|_];
      [by rewrite He in Hd |].
    simpl. by apply is_absolute_app, is_absolute_app.
Qed.

(** X15. When the file reads and parses, [loadConfig] returns the parsed
    configuration with only the three certificate paths touched: an empty
    path stays empty, a path starting with a slash stays as written, any
    other path gets the directory of the configuration file in front, and
    none changes when that directory is the current one; if that directory
    is absolute, every certificate path that is set comes out absolute. *)
Theorem loadConfig_resolves_cert_paths (path data : string) (cfg : Config) :
  ReadFile path = Some data → yaml_Unmarshal data = Some cfg →
  ∃ cfg',
    load path = inr cfg'
    ∧ Broker (Kafka cfg') = Broker (Kafka cfg)
    ∧ Topic (Kafka cfg') = Topic (Kafka cfg)
    ∧ ConsumerGroup (Kafka cfg') = ConsumerGroup (Kafka cfg)
    ∧ API cfg' = API cfg
    ∧ Filter cfg' = Filter cfg
    ∧ Forall2
        (fun p p' =>
           (p = "" → p' = "")
           ∧ (is_absolute p = true → p' = p)
           ∧ (is_relative p = true → p' = dir_of path +:+ p)
           ∧ (Dir path = "." → p' = p)
           ∧ (is_absolute (Dir path) = true → p ≠ "" →
              is_absolute p' = true))
        (cert_paths cfg) (cert_paths cfg').
Proof.
  intros Hr Hp. unfold loadConfig. rewrite Hr, Hp.
  eexists. split; [reflexivity |]. simpl.
  do 5 (split; [reflexivity |]).
  unfold cert_paths. simpl. repeat constructor; apply resolve_spec.
Qed.

End LoaderProperties.

Lemma loadConfig_resolves_cert_paths_witness :
  one_file "/srv/api/config.yaml" = Some "kafka: ..."
  ∧ one_yaml "kafka: ..." = Some sample_config
  ∧ ∃ cfg',
      Loader.loadConfig one_file one_yaml dir_table "/" "/srv/api/config.yaml"
      = inr cfg'
      ∧ Loader.cert_paths cfg'
        = ["/srv/api/certs/ca.pem"; "/etc/ssl/client.pem"; ""].
Proof.
  split; [reflexivity | split; [reflexivity |]].
  destruct (loadConfig_resolves_cert_paths one_file one_yaml dir_table "/"
              "/srv/api/config.yaml" "kafka: ..." sample_config
              eq_refl eq_refl) as (cfg' & Hload & _).
  exists cfg'. split; [exact Hload |].
  assert (inr cfg' = inr (B:=Loader.Config)
            (Loader.resolve_paths
               (Loader.configDir dir_table "/" "/srv/api/config.yaml")
               sample_config) :> Loader.LoadError + Loader.Config) as Heq
    by (rewrite <- Hload; reflexivity).
  injection Heq as ->. reflexivity.
Defined.

(** ** The scraper: retries, shutdown, and what gets published *)

Lemma retries_app (l k : list Scraper.Line) :
  retries (l ++ k) = retries l ++ retries k.
Proof.
  induction l as [|x l IH]; simpl; [done |].
  destruct x; simpl; by rewrite ?IH.
Qed.

Lemma messages_for_elem (id : Z) (s : Scraper.Scraper) :
  id ∈ Scraper.published_ids s → (1 ≤ Scraper.messages_for id s)%nat.
Proof.
  unfold Scraper.published_ids, Scraper.messages_for.
  induction (Scraper.topic s) as [|m l IH]; simpl;
    [by intros ?%elem_of_nil |].
  intros [->|Hin]%elem_of_cons.
  - rewrite Z.eqb_refl. simpl. lia.
  - destruct (ID (Scraper.Value m) =? id); simpl; [lia | by apply IH].
Qed.

Section ScraperExtras.
Import Scraper.
Variable kafka : nat → Attempt.
Local Abbreviation publish := (publishStoryToKafka kafka).
Local Abbreviation add := (addAndPublishStory kafka).

Section RetryLoop.
Variable story : Story.
Variable source : string.

Local Abbreviation loop_ok := (retry_ok story).

Lemma loop_ok_step (s s' : Scraper) (l sched : list (Z * Z)) (budget : nat)
      (r : option PublishError * Scraper) :
  attempts s' = S (attempts s) →
  retries (printed s') = retries (printed s) ++ l →
  loop_ok s' sched budget r →
  loop_ok s (l ++ sched) (S budget) r.
Proof.
  intros Ha Hl (Hb & Hex & new & Hnew & Hpre).
  unfold retry_ok. split; [lia |]. split.
  - intros id n He. destruct (Hex id n He) as (Hat & Hid & Hn & Hr).
    split; [lia |]. split; [done |]. split; [done |].
    by rewrite Hr, Hl, app_assoc.
  - exists (l ++ new). split; [by rewrite Hnew, Hl, app_assoc |].
    by apply prefix_app.
Qed.

Lemma loop_ok_stop (s s' : Scraper) (new sched : list (Z * Z)) (budget : nat)
      (e : option PublishError) :
  (e = None ∨ e = Some ErrShutdown) →
  (attempts s ≤ attempts s' ≤ attempts s + budget)%nat →
  retries (printed s') = retries (printed s) ++ new →
  new `prefix_of` sched →
  loop_ok s sched budget (e, s').
Proof.
  intros He Ha Hr Hp. unfold retry_ok.
  split; [done |]. split; [| by exists new].
  intros id n. simpl. destruct He as [-> | ->]; discriminate.
Qed.

Lemma unack_attempts (a : Attempt) (m : Message) (s : Scraper) :
  attempts (unacknowledged a m s) = attempts s.
Proof. unfold unacknowledged. by destruct (landed a). Qed.

Lemma unack_printed (a : Attempt) (m : Message) (s : Scraper) :
  printed (unacknowledged a m s) = printed s.
Proof. unfold unacknowledged. by destruct (landed a). Qed.

Lemma retry_loop_ok (remaining : nat) (attempt backoff : Z) (s : Scraper) :
  loop_ok s (schedule_from remaining attempt backoff) remaining
    (retry_loop kafka remaining attempt backoff story source s).
Proof.
  revert attempt backoff s.
  induction remaining as [|n IH]; intros attempt backoff s.
  { unfold retry_ok. simpl. split; [lia |]. split.
    - intros id k [= <- <-]. by rewrite Nat.add_0_r, app_nil_r.
    - exists []. by rewrite app_nil_r. }
  cbn [retry_loop schedule_from].
  destruct (cancelled s).
  { apply loop_ok_stop with (new := []);
      [by right | lia | by rewrite app_nil_r | apply prefix_nil]. }
  cbv zeta.
  destruct (result (kafka (attempts s))).
  - apply loop_ok_stop with (new := []);
      [by left | simpl; rewrite ?unack_attempts; simpl; lia | simpl; rewrite ?unack_printed; simpl; by rewrite ?retries_app
      | apply prefix_nil].
  - destruct (shutdownBeforeRetry (kafka (attempts s))).
    { apply loop_ok_stop with (new := []);
        [by right | simpl; rewrite ?unack_attempts; simpl; lia
      | simpl; rewrite ?unack_printed; simpl; by rewrite app_nil_r
      | apply prefix_nil]. }
    destruct (attempt <? maxRetries).
    + destruct (shutdownWhileWaiting (kafka (attempts s))).
      { apply loop_ok_stop with (new := [(attempt + 1, backoff)]);
          [by right | simpl; rewrite ?unack_attempts; simpl; lia | simpl; rewrite ?unack_printed; simpl; by rewrite ?retries_app
          | by apply prefix_cons, prefix_nil]. }
      eapply loop_ok_step with (l := [(attempt + 1, backoff)]);
        [ | | apply IH];
        [simpl; by rewrite ?unack_attempts
        | simpl; rewrite ?unack_printed; simpl; by rewrite ?retries_app].
    + eapply loop_ok_step with (l := []);
        [ | | apply IH];
        [simpl; by rewrite ?unack_attempts
        | simpl; rewrite ?unack_printed; simpl; by rewrite app_nil_r].
  - destruct (shutdownBeforeRetry (kafka (attempts s))).
    { apply loop_ok_stop with (new := []);
        [by right | simpl; rewrite ?unack_attempts; simpl; lia
      | simpl; rewrite ?unack_printed; simpl; by rewrite app_nil_r
      | apply prefix_nil]. }
    destruct (attempt <? maxRetries).
    + destruct (shutdownWhileWaiting (kafka (attempts s))).
      { apply loop_ok_stop with (new := [(attempt + 1, backoff)]);
          [by right | simpl; rewrite ?unack_attempts; simpl; lia | simpl; rewrite ?unack_printed; simpl; by rewrite ?retries_app
          | by apply prefix_cons, prefix_nil]. }
      eapply loop_ok_step with (l := [(attempt + 1, backoff)]);
        [ | | apply IH];
        [simpl; by rewrite ?unack_attempts
        | simpl; rewrite ?unack_printed; simpl; by rewrite ?retries_app].
    + eapply loop_ok_step with (l := []);
        [ | | apply IH];
        [simpl; by rewrite ?unack_attempts
        | simpl; rewrite ?unack_printed; simpl; by rewrite app_nil_r].
  - apply loop_ok_stop with (new := []);
      [by right | simpl; rewrite ?unack_attempts; simpl; lia
      | simpl; rewrite ?unack_printed; simpl; by rewrite app_nil_r
      | apply prefix_nil].
Qed.
End RetryLoop.

(** One turn of the loop, when the shutdown is seen at its start and
    when the write is acknowledged. *)
Lemma retry_loop_cancelled (n : nat) (attempt backoff : Z)
      (story : Story) (source : string) (s : Scraper) :
  cancelled s = true →
  retry_loop kafka (S n) attempt backoff story source s
  = (Some ErrShutdown, s).
Proof. intros Hc. simpl. by rewrite Hc. Qed.

Lemma retry_loop_acknowledged (n : nat) (attempt backoff : Z)
      (story : Story) (source : string) (s : Scraper) :
  cancelled s = false → result (kafka (attempts s)) = WriteOk →
  retry_loop kafka (S n) attempt backoff story source s
  = (None,
     print (LinePublished source (Title story) (ID story))
       (deliver (mkMessage source story) (next_attempt s))).
Proof. intros Hc Hr. simpl. by rewrite Hc, Hr. Qed.

Lemma publish_cancelled (story : Story) (source : string) (s : Scraper) :
  cancelled s = true → publish story source s = (Some ErrShutdown, s).
Proof.
  intros Hc. unfold publishStoryToKafka.
  change (Z.to_nat (maxRetries + 1)) with 6%nat.
  by apply retry_loop_cancelled.
Qed.

(** X17. Once the shutdown has been observed nothing more is published:
    a publish call returns the shutdown error at once, without a write
    attempt; a call of [addAndPublishStory] leaves the topic and the
    attempt count as they were; and no poll changes the state at all. *)
Theorem shutdown_stops_publishing (s : Scraper) :
  cancelled s = true →
  (∀ story source, publish story source s = (Some ErrShutdown, s))
  ∧ (∀ story source,
       topic (add story source s) = topic s
       ∧ attempts (add story source s) = attempts s
       ∧ cancelled (add story source s) = true)
  ∧ (∀ sources, pollStories kafka sources s = s)
  ∧ (∀ ticks, run kafka ticks s = s).
Proof.
  intros Hc.
  assert (∀ sources, pollStories kafka sources s = s) as Hpoll.
  { intros [|[source fetched] sources]; simpl; [done | by rewrite Hc]. }
  split; [intros story source; by apply publish_cancelled |].
  split; [| split; [exact Hpoll |]].
  - intros story source. unfold addAndPublishStory.
    destruct (unseen (ID story) s); [| done].
    rewrite publish_cancelled
      by (by destruct (negb (String.eqb (URL story) ""))).
    by destruct (negb (String.eqb (URL story) "")).
  - intros ticks. induction ticks as [|tick ticks IH]; simpl; [done |].
    by rewrite Hpoll.
Qed.

(** Preservation by a poll, for a property that [addAndPublishStory]
    preserves on the stories it is called with. *)
Section GuardedPreservation.
Variable P : Scraper → Prop.
Variable A : Story → Prop.
Hypothesis add_preserves_on :
  ∀ story source s, A story → P s → P (add story source s).

Lemma poll_items_preserves_on source items s :
  (∀ story, story ∈ titled items → A story) →
  P s → P (poll_items kafka source items s).
Proof.
  revert s. induction items as [|item items IH]; intros s HA Hs; simpl;
    [done |].
  destruct (cancelled s); [done |].
  destruct item as [story|]; simpl in HA; [| by apply IH].
  destruct (negb (String.eqb (Title story) "")); [| by apply IH].
  apply IH.
  - intros story' Hin. apply HA. by right.
  - apply add_preserves_on; [apply HA; left | done].
Qed.

Lemma pollStories_preserves_on sources s :
  (∀ story, story ∈ tick_stories sources → A story) →
  P s → P (pollStories kafka sources s).
Proof.
  revert s.
  induction sources as [|[source fetched] sources IH]; intros s HA Hs;
    simpl; [done |].
  destruct (cancelled s); [done |].
  destruct fetched as [items|]; simpl in HA; [| by apply IH].
  apply IH.
  - intros story Hin. apply HA, elem_of_app. by right.
  - apply poll_items_preserves_on; [| done].
    intros story Hin. apply HA, elem_of_app. by left.
Qed.

Lemma run_preserves_on ticks s :
  (∀ story, story ∈ run_stories ticks → A story) →
  P s → P (run kafka ticks s).
Proof.
  unfold run_stories.
  revert s. induction ticks as [|tick ticks IH]; intros s HA Hs; simpl;
    [done |].
  apply IH.
  - intros story Hin. apply HA. simpl. apply elem_of_app. by right.
  - apply pollStories_preserves_on; [| done].
    intros story Hin. apply HA. simpl. apply elem_of_app. by left.
Qed.
End GuardedPreservation.

Lemma titled_has_title (items : list (option Story)) (story : Story) :
  story ∈ titled items → Title story ≠ "".
Proof.
  induction items as [|[x|] items IH]; simpl; [by intros ?%elem_of_nil | |done].
  destruct (String.eqb_spec (Title x) ""); simpl; [done |].
  intros [->|Hin]%elem_of_cons; [done | by apply IH].
Qed.

Lemma tick_stories_have_title sources (story : Story) :
  story ∈ tick_stories sources → Title story ≠ "".
Proof.
  induction sources as [|[source [items|]] sources IH]; simpl;
    [by intros ?%elem_of_nil | | done].
  intros [Hin|Hin]%elem_of_app; [by eapply titled_has_title | by apply IH].
Qed.

Lemma run_stories_have_title ticks (story : Story) :
  story ∈ run_stories ticks → Title story ≠ "".
Proof.
  unfold run_stories.
  induction ticks as [|tick ticks IH]; simpl; [by intros ?%elem_of_nil |].
  intros [Hin|Hin]%elem_of_app;
    [by eapply tick_stories_have_title | by apply IH].
Qed.

(** X18. Only fetched stories with a title are marked seen or published:
    over any run of polls from a fresh scraper, every message on the topic
    carries one of the titled stories the polls fetched, and every id
    marked seen is the id of one of them. *)
Theorem run_publishes_only_titled
        (ticks : list (list (string * option (list (option Story))))) :
  (∀ m, m ∈ topic (run kafka ticks NewScraper) →
        Value m ∈ run_stories ticks ∧ Title (Value m) ≠ "")
  ∧ (∀ id, is_Some (seenStories (run kafka ticks NewScraper) !! id) →
           ∃ story, story ∈ run_stories ticks ∧ ID story = id).
Proof.
  set (P := fun s : Scraper =>
              (∀ m, m ∈ topic s → Value m ∈ run_stories ticks)
              ∧ (∀ id, is_Some (seenStories s !! id) →
                       ∃ story, story ∈ run_stories ticks ∧ ID story = id)).
  assert (P (run kafka ticks NewScraper)) as [Htopic Hseen].
  { apply (run_preserves_on P (fun story => story ∈ run_stories ticks));
      [| done |].
    - intros story source s HA [Ht Hs].
      destruct (add_effect kafka story source s)
        as [[_ ->]|(_ & Hs' & k & Ht' & _)]; [done |].
      split.
      + intros m Hm. rewrite Ht' in Hm.
        apply elem_of_app in Hm as [Hm|Hm]; [by apply Ht |].
        by apply elem_of_replicate in Hm as [-> _].
      + intros id. rewrite Hs'.
        destruct (decide (ID story = id)) as [<-|Hne]; [by exists story |].
        rewrite lookup_insert_ne by done. apply Hs.
    - split; [intros m Hm; by apply elem_of_nil in Hm |].
      intros id [x Hx]. simpl in Hx. by rewrite lookup_empty in Hx. }
  split; [| exact Hseen].
  intros m Hm. split; [by apply Htopic |].
  by apply run_stories_have_title with ticks, Htopic.
Qed.
Lemma healthy_publish (story : Story) (source : string) (s : Scraper) :
  healthy kafka → cancelled s = false →
  (publish story source s).1 = None
  ∧ cancelled (publish story source s).2 = false.
Proof.
  intros Hh Hc. unfold publishStoryToKafka.
  change (Z.to_nat (maxRetries + 1)) with 6%nat.
  by rewrite retry_loop_acknowledged.
Qed.

(** With a healthy broker: no shutdown observed, and every id marked seen
    has its message on the topic. *)
Lemma healthy_add (story : Story) (source : string) (s : Scraper) :
  healthy kafka →
  cancelled s = false ∧ (∀ id, seenStories s !! id = Some true →
                               id ∈ published_ids s) →
  cancelled (add story source s) = false
  ∧ (∀ id, seenStories (add story source s) !! id = Some true →
           id ∈ published_ids (add story source s)).
Proof.
  intros Hh [Hc Hpub]. unfold addAndPublishStory.
  destruct (unseen (ID story) s) eqn:Hu; [| done].
  match goal with
  | |- context [publishStoryToKafka _ _ _ ?s'] =>
      assert (cancelled s' = false) as Hc'
        by (by destruct (negb (String.eqb (URL story) "")));
      destruct (healthy_publish story source s' Hh Hc') as [Hnone Hcan];
      destruct (publish_effect kafka story source s')
        as (Hseen & k & Htopic & _ & Hk & _);
      assert (seenStories s' = <[ID story := true]> (seenStories s)
              ∧ topic s' = topic s) as [Hs' Ht']
        by (by destruct (negb (String.eqb (URL story) "")));
      destruct (publishStoryToKafka kafka story source s') as [e s'']
  end.
  simpl in *. subst e. split; [done |]. specialize (Hk eq_refl).
  intros id. rewrite Hseen, Hs'. unfold published_ids.
  rewrite Htopic, Ht', map_app.
  destruct (decide (ID story = id)) as [<-|Hne].
  - intros _. apply elem_of_app. right.
    apply list_elem_of_fmap. exists (mkMessage source story).
    split; [done |]. apply elem_of_replicate. split; [done | lia].
  - rewrite lookup_insert_ne by done. intros Hid.
    apply elem_of_app. left. by apply Hpub.
Qed.

Lemma healthy_poll_items (source : string) (items : list (option Story))
      (s : Scraper) :
  healthy kafka →
  cancelled s = false ∧ (∀ id, seenStories s !! id = Some true →
                               id ∈ published_ids s) →
  ∀ story, story ∈ titled items →
           seenStories (poll_items kafka source items s) !! ID story
           = Some true.
Proof.
  intros Hh. revert s.
  induction items as [|item items IH]; intros s Hs story; simpl;
    [by intros ?%elem_of_nil |].
  destruct Hs as [Hc Hpub]. rewrite Hc.
  destruct item as [x|]; [| by apply IH].
  destruct (negb (String.eqb (Title x) "")); [| by apply IH].
  intros [->|Hin]%elem_of_cons.
  - apply (poll_items_preserves kafka
             (fun s' => seenStories s' !! ID x = Some true)).
    + intros story' source' s' Hs'. by apply add_settled.
    + apply add_marks_seen.
  - apply IH; [by apply healthy_add | done].
Qed.

(** X19. With a broker that acknowledges every write and no shutdown,
    nothing is lost: after any run of polls from a fresh scraper, each
    titled story the polls fetched has exactly one message on the topic
    for its id. *)
Theorem healthy_broker_publishes_each_once
        (ticks : list (list (string * option (list (option Story)))))
        (story : Story) :
  healthy kafka →
  story ∈ run_stories ticks →
  messages_for (ID story) (run kafka ticks NewScraper) = 1%nat.
Proof.
  intros Hh Hin.
  set (H := fun s : Scraper =>
              cancelled s = false
              ∧ (∀ id, seenStories s !! id = Some true →
                       id ∈ published_ids s)).
  assert (∀ story' source s, H s → H (add story' source s)) as Hadd
    by (intros story' source s Hs; by apply healthy_add).
  assert (∀ id s, seenStories s !! id = Some true →
                  ∀ story' source,
                    seenStories (add story' source s) !! id = Some true)
    as Hkeep by (intros id s Hs story' source; by apply add_settled).
  assert (∀ tks s, H s → story ∈ run_stories tks →
                   seenStories (run kafka tks s) !! ID story = Some true)
    as Hseen.
  { unfold run_stories.
    induction tks as [|tick tks IHt]; intros s Hs; simpl;
      [by intros ?%elem_of_nil |].
    intros [Ht|Ht]%elem_of_app.
    - apply (run_preserves kafka
               (fun s' => seenStories s' !! ID story = Some true));
        [intros; by apply Hkeep |].
      clear IHt. revert s Hs Ht.
      induction tick as [|[source [items|]] tick IHs]; intros s Hs; simpl;
        [by intros ?%elem_of_nil | |].
      + destruct Hs as [Hc Hpub]. rewrite Hc.
        intros [Hi|Hi]%elem_of_app.
        * apply (pollStories_preserves kafka
                   (fun s' => seenStories s' !! ID story = Some true));
            [intros; by apply Hkeep |].
          by apply healthy_poll_items.
        * apply IHs; [| done].
          by apply (poll_items_preserves kafka H).
      + destruct Hs as [Hc Hpub]. rewrite Hc. by apply IHs.
    - apply IHt; [| done]. by apply (pollStories_preserves kafka H). }
  assert (H NewScraper) as H0.
  { split; [done |]. intros id Hid. simpl in Hid.
    by rewrite lookup_empty in Hid. }
  pose proof (run_preserves kafka H Hadd ticks NewScraper H0) as [_ Hpub].
  assert (failures_are_losses kafka) as Hl
    by (intros n Hn; by destruct (Hn (Hh n))).
  pose proof (run_preserves kafka published_once
                (fun story' source s => add_published_once kafka story' source s Hl)
                ticks NewScraper
                NewScraper_published_once) as Honce.
  apply Nat.le_antisymm.
  - by apply published_once_messages_for.
  - by apply messages_for_elem, Hpub, Hseen.
Qed.

(** X20. The topic is append-only and the seen map only grows: over any
    run of polls, what the broker had taken is a prefix of what it has,
    and every id marked seen stays marked. *)
Theorem run_monotone
        (ticks : list (list (string * option (list (option Story)))))
        (s : Scraper) :
  topic s `prefix_of` topic (run kafka ticks s)
  ∧ (∀ id, seenStories s !! id = Some true →
           seenStories (run kafka ticks s) !! id = Some true).
Proof.
  set (P := fun s' : Scraper =>
              topic s `prefix_of` topic s'
              ∧ (∀ id, seenStories s !! id = Some true →
                       seenStories s' !! id = Some true)).
  assert (P (run kafka ticks s)) as [Ht Hs].
  { apply run_preserves; [| done].
    intros story source s' [Hp Hk]. split.
    - destruct (add_effect kafka story source s')
        as [[_ ->]|(_ & _ & k & -> & _)];
        [done | by apply prefix_app_r].
    - intros id Hid. by apply add_settled, Hk. }
  split; [exact Ht | exact Hs].
Qed.
End ScraperExtras.

(** X21. A poll fetches at most [storiesToFetch] stories per source, the
    first ones of the id list in their order; a negative [storiesToFetch]
    makes the slice expression panic on every id list, the empty one
    included. *)
Theorem limit_ids_spec (storiesToFetch : Z) (ids : list Z) :
  (0 <= storiesToFetch →
   ∃ l, limit_ids storiesToFetch ids = Some l
        ∧ l `prefix_of` ids
        ∧ Z.of_nat (length l) = Z.min storiesToFetch (Z.of_nat (length ids)))
  ∧ (storiesToFetch < 0 → limit_ids storiesToFetch ids = None).
Proof.
  unfold limit_ids. split.
  - intros Hn.
    destruct (Z.ltb_spec storiesToFetch (Z.of_nat (length ids))) as [Hlt|Hge].
    + destruct (Z.ltb_spec storiesToFetch 0); [lia |].
      eexists. split; [reflexivity |]. split.
      * exists (drop (Z.to_nat storiesToFetch) ids). by rewrite take_drop.
      * rewrite length_take. lia.
    + exists ids. split; [done |]. split; [done | lia].
  - intros Hn.
    destruct (Z.ltb_spec storiesToFetch (Z.of_nat (length ids))); [| lia].
    destruct (Z.ltb_spec storiesToFetch 0); [done | lia].
Qed.

Lemma limit_ids_spec_witness :
  0 <= 2 ∧ -1 < 0
  ∧ limit_ids 2 [11; 12; 13] = Some [11; 12]
  ∧ limit_ids (-1) [] = None.
Proof.
  destruct (limit_ids_spec 2 [11; 12; 13]) as [Hok _].
  destruct (limit_ids_spec (-1) []) as [_ Hpanic].
  split; [lia | split; [lia |]].
  split; [reflexivity | apply Hpanic; lia].
Defined.


Lemma shutdown_stops_publishing_witness :
  Scraper.cancelled cancelled_scraper = true
  ∧ Scraper.run broker_recovers two_ticks cancelled_scraper = cancelled_scraper
  ∧ Scraper.publishStoryToKafka always_ok rust_story "top" cancelled_scraper
    = (Some Scraper.ErrShutdown, cancelled_scraper).
Proof.
  destruct (shutdown_stops_publishing broker_recovers cancelled_scraper
              eq_refl) as (_ & _ & _ & Hrun).
  destruct (shutdown_stops_publishing always_ok cancelled_scraper
              eq_refl) as (Hpub & _).
  split; [reflexivity | split; [apply Hrun | apply Hpub]].
Defined.

Lemma healthy_broker_publishes_each_once_witness :
  healthy always_ok
  ∧ low_score_story ∈ run_stories two_ticks
  ∧ Scraper.messages_for (ID low_score_story)
      (Scraper.run always_ok two_ticks Scraper.NewScraper) = 1%nat.
Proof.
  assert (healthy always_ok) as Hh by (intros n; reflexivity).
  assert (low_score_story ∈ run_stories two_ticks) as Hin
    by (right; left).
  split; [exact Hh | split; [exact Hin |]].
  apply (healthy_broker_publishes_each_once always_ok two_ticks
           low_score_story Hh Hin).
Defined.
